(** * cam2mjpeg: frame reader, broadcast hub and HTTP sessions

    A shallow embedding of [main.go] and [mjpeg.go].  Byte slices live in a
    store of arrays so that aliasing between the reader's working buffer and
    the images it hands out is visible; channels live in a store of queues
    shared by the registry and the sessions; goroutine scheduling, pipe
    reads, client disconnects and write results are driven by explicit
    scripts. *)

From Stdlib Require Import ZArith Lia.
From Stdlib.Strings Require Import Byte.
From stdpp Require Import base list gmap strings pretty.

#[global] Instance byte_eq_dec : EqDecision byte := Byte.byte_eq_dec.

(** ** Go byte slices *)

(** A zero-initialised array of [a_size] bytes.  Only the prefix that has
    been written is stored; every index from [length a_data] up to [a_size]
    holds the zero byte. *)
Record array := Array { a_data : list byte; a_size : Z }.

(** [a[lo : lo+n]] *)
Definition a_get (a : array) (lo n : nat) : list byte :=
  let d := take n (drop lo (a_data a)) in
  d ++ replicate (n - length d) x00.

(** [a[lo : lo+len(bs)] = bs] *)
Definition a_put (a : array) (lo : nat) (bs : list byte) : array :=
  let pre := take lo (a_data a) in
  Array (pre ++ replicate (lo - length pre) x00 ++ bs
             ++ drop (lo + length bs) (a_data a))
        (a_size a).

Abbreviation store := (list array).

(** A slice header: backing array, offset into it, length. *)
Record slice := Slice { s_arr : nat; s_off : Z; s_len : Z }.

(** [s[lo:hi]] *)
Definition reslice (s : slice) (lo hi : Z) : slice :=
  Slice (s_arr s) (s_off s + lo) (hi - lo).

Definition bytes_of (h : store) (s : slice) : list byte :=
  match h !! s_arr s with
  | Some a => a_get a (Z.to_nat (s_off s)) (Z.to_nat (s_len s))
  | None => []
  end.

Definition write_at (h : store) (s : slice) (bs : list byte) : store :=
  match h !! s_arr s with
  | Some a => <[s_arr s := a_put a (Z.to_nat (s_off s)) bs]> h
  | None => h
  end.

(** [make([]byte, n)]: a fresh array; a negative length is a run-time panic
    ([None]). *)
Definition make (n : Z) (h : store) : option (slice * store) :=
  if (n <? 0)%Z then None
  else Some (Slice (length h) 0 n, h ++ [Array [] n]).

(** [copy(dst, src)]: copies [min(len(dst), len(src))] bytes, with the
    semantics of memmove when the two overlap. *)
Definition copy (dst src : slice) (h : store) : store :=
  let n := Z.min (s_len dst) (s_len src) in
  write_at h dst (take (Z.to_nat n) (bytes_of h src)).

(** [bytes.HasPrefix], [bytes.HasSuffix], [bytes.Index] *)
Fixpoint HasPrefix (s prefix : list byte) {struct prefix} : bool :=
  match prefix, s with
  | [], _ => true
  | _ :: _, [] => false
  | p :: prefix', x :: s' => Byte.eqb x p && HasPrefix s' prefix'
  end.

Definition HasSuffix (s suffix : list byte) : bool :=
  (length suffix <=? length s) &&
  HasPrefix (drop (length s - length suffix) s) suffix.

Fixpoint Index (s sep : list byte) : Z :=
  if HasPrefix s sep then 0%Z
  else match s with
       | [] => (-1)%Z
       | _ :: s' => let i := Index s' sep in
                    if (i <? 0)%Z then (-1)%Z else (1 + i)%Z
       end.

(** ** The frame reader ([main]) *)

Definition beginOfJPEG : list byte := [xff; xd8].
Definition endOfJPEG : list byte := [xff; xd9].

(** What the reader does with a candidate image. *)
Inductive event :=
  | GoSendImage (img : slice)   (* go sendImage(img) *)
  | WarnInvalid (img : slice).  (* log.Warn("Found invalid JPEG, skipping") *)

#[global] Instance slice_eq_dec : EqDecision slice.
Proof. solve_decision. Defined.
#[global] Instance event_eq_dec : EqDecision event.
Proof. solve_decision. Defined.

Record reader := Reader {
  heap : store;
  buf : slice;
  br : Z;
  bw : Z;
  trace : list event
}.

(** Body of the extraction loop, entered with [eoj] the index returned by
    [bytes.Index(buf[br:bw], endOfJPEG)]. *)
Definition extract_one (eoj0 : Z) (st : reader) : option reader :=
  let eoj := (eoj0 + Z.of_nat (length endOfJPEG))%Z in
  match make (eoj - br st) (heap st) with
  | None => None
  | Some (img, h1) =>
      let h2 := copy img (reslice (buf st) (br st) (br st + eoj)) h1 in
      let br' := (br st + eoj)%Z in
      let b := bytes_of h2 img in
      if negb (HasPrefix b beginOfJPEG) || negb (HasSuffix b endOfJPEG)
      then Some (Reader h2 (buf st) br' (bw st) (trace st ++ [WarnInvalid img]))
      else Some (Reader h2 (buf st) br' (bw st) (trace st ++ [GoSendImage img]))
  end.

Inductive outcome (A : Type) :=
  | Done (a : A)
  | Panicked (a : A)     (* run-time panic; [a] is the state it was raised in *)
  | OutOfFuel.
Arguments Done {A} a.
Arguments Panicked {A} a.
Arguments OutOfFuel {A}.

(** [for eoj := bytes.Index(buf[br:bw], endOfJPEG); eoj >= 0; eoj = ... { }] *)
Fixpoint extract_loop (fuel : nat) (st : reader) : outcome reader :=
  let eoj := Index (bytes_of (heap st) (reslice (buf st) (br st) (bw st)))
                   endOfJPEG in
  if (eoj <? 0)%Z then Done st
  else match fuel with
       | O => OutOfFuel
       | S fuel' =>
           match extract_one eoj st with
           | None => Panicked st
           | Some st' => extract_loop fuel' st'
           end
       end.

(** Every turn consumes at least the two marker bytes. *)
Definition extract_images (st : reader) : outcome reader :=
  extract_loop (Z.to_nat (bw st - br st)) st.

(** [out.Read(p)] on a pipe that still holds [stream] and hands over at most
    [k] bytes this time.  An empty [p] reads nothing; an exhausted pipe is
    [io.EOF] ([None]). *)
Definition Read (p : slice) (k : nat) (stream : list byte) (h : store)
  : option (Z * list byte * store) :=
  if (s_len p <=? 0)%Z then Some (0%Z, stream, h)
  else match stream with
       | [] => None
       | _ => let n := Z.to_nat ((Z.of_nat k `min` s_len p)
                                   `min` Z.of_nat (length stream)) in
              Some (Z.of_nat n, drop n stream, write_at h p (take n stream))
       end.

(** If buffer was read, slide the remains to the beginning. *)
Definition slide (st : reader) : reader :=
  if (0 <? br st)%Z
  then Reader (copy (buf st) (reslice (buf st) (br st) (bw st)) (heap st))
              (buf st) 0 (bw st - br st) (trace st)
  else st.

Inductive run_status :=
  | Reading       (* the script of reads is used up; the loop goes on *)
  | Fatal         (* log.Fatal("Unable to read from output") *)
  | Panic         (* run-time panic in the extraction loop *)
  | NoFuel.       (* the bound on the extraction loop was too small *)

(** The [for] loop of [main]; [chunks] gives, read by read, how many bytes
    the pipe is ready to hand over. *)
Fixpoint main_loop (chunks : list nat) (stream : list byte) (st : reader)
  : run_status * reader * list byte :=
  match chunks with
  | [] => (Reading, st, stream)
  | k :: chunks' =>
      let st1 := slide st in
      match Read (reslice (buf st1) (bw st1) (s_len (buf st1))) k stream
                 (heap st1) with
      | None => (Fatal, st1, stream)
      | Some (n, stream', h') =>
          let st2 := Reader h' (buf st1) (br st1) (bw st1 + n) (trace st1) in
          if (n =? 0)%Z then main_loop chunks' stream' st2
          else match extract_images st2 with
               | Done st3 => main_loop chunks' stream' st3
               | Panicked st3 => (Panic, st3, stream')
               | OutOfFuel => (NoFuel, st2, stream')
               end
      end
  end.

(** [buf = make([]byte, 10*1024*1024)], [br = bw = 0]. *)
Definition bufsize : Z := 10 * 1024 * 1024.

Definition init : reader :=
  Reader [Array [] bufsize] (Slice 0 0 bufsize) 0 0 [].

Definition main (stream : list byte) (chunks : list nat)
  : run_status * reader * list byte :=
  main_loop chunks stream init.

(** The images handed to [sendImage], in the order the reader spawned them. *)
Definition spawned (tr : list event) : list slice :=
  omap (λ e, match e with GoSendImage s => Some s | _ => None end) tr.

Definition skipped (tr : list event) : list slice :=
  omap (λ e, match e with WarnInvalid s => Some s | _ => None end) tr.

Definition frames (r : run_status * reader * list byte) : list (list byte) :=
  bytes_of (heap r.1.2) <$> spawned (trace r.1.2).

Definition j4 : list byte := [xff; xd8; xff; xd9].
Definition j5 : list byte := [xff; xd8; x00; xff; xd9].
Definition j6 : list byte := [xff; xd8; x01; x02; xff; xd9].


(** ** Channels and the registry *)

(** A frame as the hub and the sessions see it: the bytes of a slice the
    reader handed to [sendImage].  Such a slice is never written to again
    (shown below for the reader), so it is taken for its bytes from here
    on. *)
Abbreviation frame := (list byte).

(** [chan []byte] *)
Record chan := Chan { c_buf : list frame; c_cap : nat; c_closed : bool }.

Inductive logline :=
  | LRegistered (id : string)     (* "registered new requester" *)
  | LRemoved (id : string)        (* "removed requester" *)
  | LSent (requesters : nat)      (* "sent frame" *)
  | LUnable (id : string)         (* "Unable to process image" *)
  | LTooMany (id : string).       (* "Too many errors, killing connection" *)

#[global] Instance logline_eq_dec : EqDecision logline.
Proof. solve_decision. Defined.

(** [requester] maps subscriber ids to channels; the channels themselves are
    shared with the handlers that made them. *)
Record world := World {
  requester : gmap string nat;
  chans : list chan;
  log : list logline
}.

Definition maxBacklog : nat := 5.

(** A step of the hub either completes, or blocks for ever, or panics. *)
Inductive result (A : Type) :=
  | Ok (a : A)
  | Blocks
  | Panics.
Arguments Ok {A} a.
Arguments Blocks {A}.
Arguments Panics {A}.

#[global] Instance result_ret : MRet result := λ A a, Ok a.
#[global] Instance result_bind : MBind result := λ A B f m,
  match m with
  | Ok a => f a
  | Blocks => Blocks
  | Panics => Panics
  end.

(** [make(chan []byte, n)] *)
Definition make_chan (n : nat) (w : world) : nat * world :=
  (length (chans w),
   World (requester w) (chans w ++ [Chan [] n false]) (log w)).

(** [len(c)] *)
Definition chan_len (c : nat) (cs : list chan) : nat :=
  match cs !! c with
  | Some ch => length (c_buf ch)
  | None => 0
  end.

(** [c <- v] *)
Definition chan_send (c : nat) (v : frame) (cs : list chan)
  : result (list chan) :=
  match cs !! c with
  | None => Blocks
  | Some ch =>
      if c_closed ch then Panics
      else if length (c_buf ch) <? c_cap ch
           then Ok (<[c := Chan (c_buf ch ++ [v]) (c_cap ch) false]> cs)
           else Blocks
  end.

(** [<-c]: [None] while there is nothing to receive; a closed and drained
    channel yields the zero value. *)
Definition chan_recv (c : nat) (cs : list chan) : option (frame * list chan) :=
  match cs !! c with
  | None => None
  | Some ch =>
      match c_buf ch with
      | v :: q => Some (v, <[c := Chan q (c_cap ch) (c_closed ch)]> cs)
      | [] => if c_closed ch then Some ([], cs) else None
      end
  end.

(** [close(c)] *)
Definition chan_close (c : nat) (cs : list chan) : result (list chan) :=
  match cs !! c with
  | None => Panics
  | Some ch =>
      if c_closed ch then Panics
      else Ok (<[c := Chan (c_buf ch) (c_cap ch) true]> cs)
  end.

Definition registerImgChan (id : string) (ic : nat) (w : world) : world :=
  World (<[id := ic]> (requester w)) (chans w) (log w ++ [LRegistered id]).

Definition deregisterImgChan (id : string) (w : world) : world :=
  World (delete id (requester w)) (chans w) (log w ++ [LRemoved id]).

(** [for _, c := range requester { if len(c) < maxBacklog { c <- jpg } }],
    visiting the entries in the order [entries]. *)
Fixpoint range_send (jpg : frame) (entries : list (string * nat))
    (cs : list chan) : result (list chan) :=
  match entries with
  | [] => Ok cs
  | (_, c) :: entries' =>
      cs' ← (if chan_len c cs <? maxBacklog
             then chan_send c jpg cs else Ok cs);
      range_send jpg entries' cs'
  end.

(** [sendImage] with the iteration order of the map made explicit. *)
Definition sendImage_in (entries : list (string * nat)) (jpg : frame)
    (w : world) : result world :=
  if size (requester w) =? 0 then Ok w
  else cs ← range_send jpg entries (chans w);
       Ok (World (requester w) cs (log w ++ [LSent (size (requester w))])).

Definition sendImage (jpg : frame) (w : world) : result world :=
  sendImage_in (map_to_list (requester w)) jpg w.

(** ** HTTP responses *)

Inductive part_result :=
  | PartOk
  | CreatePartFailed     (* "Unable to create mime part" *)
  | WriteFailed.         (* "Unable to write image" *)

Definition part_ok (r : part_result) : bool :=
  match r with PartOk => true | _ => false end.

Inductive piece :=
  | Text (s : string)                               (* fmt.Fprintln(w, s) *)
  | Raw (img : frame)                               (* w.Write(img) *)
  | Part (hdr : list (string * string)) (img : frame)
                       (* boundary and header of a part, and its image *)
  | PartStart (hdr : list (string * string))
                       (* boundary and header of a part whose image did
                          not go out *)
  | ClosingBoundary.                                (* mimeWriter.Close() *)

Record response := Response {
  status : nat;
  headers : list (string * string);
  body : list piece;
  renders : list (frame * part_result)   (* every image the closure was
                                            run for, and what it returned *)
}.

Definition new_response : response := Response 200 [] [] [].

(** [Header().Add(k, v)] *)
Definition header_add (k v : string) (res : response) : response :=
  Response (status res) (headers res ++ [(k, v)]) (body res) (renders res).

(** [Header().Set(k, v)] *)
Definition header_set (k v : string) (res : response) : response :=
  Response (status res)
           (filter (λ kv, kv.1 ≠ k) (headers res) ++ [(k, v)])
           (body res) (renders res).

Definition write (p : piece) (res : response) : response :=
  Response (status res) (headers res) (body res ++ [p]) (renders res).

(** [http.Error(w, msg, code)] *)
Definition http_Error (msg : string) (code : nat) (res : response) : response :=
  let res1 := header_set "Content-Type" "text/plain; charset=utf-8" res in
  let res2 := header_set "X-Content-Type-Options" "nosniff" res1 in
  write (Text msg) (Response code (headers res2) (body res2) (renders res2)).

(** The [multipart.Writer] keeps the part it made last, and a part keeps the
    error of a [Write] that failed.  [CreatePart] and [Close] begin by
    closing the last part and return its error, if it has one, before they
    write anything; the part whose image could not be written therefore
    stays the last one, and its error is kept for good.  [renders] holds
    what the closure returned for every image so far. *)
Definition kept_error (res : response) : bool :=
  existsb (λ ir, match ir.2 with WriteFailed => true | _ => false end)
          (renders res).

(** What the closure of [handleMJPEG] returns for an image when the
    connection answers the writes of its part with [conn]: it takes
    boundary, header and image ([PartOk]), fails on boundary and header
    ([CreatePartFailed]) or takes these and fails on the image
    ([WriteFailed]).  With an error kept, [CreatePart] fails before the
    connection is asked. *)
Definition closure_result (conn : part_result) (res : response)
  : part_result :=
  if kept_error res then CreatePartFailed else conn.

(** The closure of [handleMJPEG] that renders one image as a MIME part and
    returns [r]: what it has written by then. *)
Definition render (img : frame) (r : part_result) (res : response) : response :=
  let partHeader := [("Content-Type", "image/jpeg");
                     ("Content-Length", pretty (length img))] in
  let res' := Response (status res) (headers res) (body res)
                       (renders res ++ [(img, r)]) in
  match r with
  | PartOk => write (Part partHeader img) res'
  | WriteFailed => write (PartStart partHeader) res'
  | CreatePartFailed => res'
  end.

(** ** Sessions *)

Record request := Request { method : string; path : string }.

(** What the rest of the program does while a handler runs. *)
Inductive action :=
  | Publish (jpg : frame)   (* a [sendImage] goroutine runs *)
  | Join (id : string)      (* another handler: make(chan []byte, 10) and
                               registerImgChan *)
  | Leave (id : string)     (* another handler's deferred function *)
  | Take (id : string).     (* another handler receives from its channel *)

Inductive step :=
  | Env (a : action)
  | CloseNotify             (* [<-cn] is ready and selected *)
  | Recv (r : part_result). (* the handler is scheduled to receive; [r] is
                               what the connection does with the part
                               written for the image *)

Definition act (a : action) (w : world) : result world :=
  match a with
  | Publish jpg => sendImage jpg w
  | Join id =>
      let '(c, w1) := make_chan 10 w in Ok (registerImgChan id c w1)
  | Leave id =>
      match requester w !! id with
      | Some c =>
          let w1 := deregisterImgChan id w in
          cs ← chan_close c (chans w1);
          Ok (World (requester w1) cs (log w1))
      | None => Ok w
      end
  | Take id =>
      match requester w !! id with
      | Some c =>
          match chan_recv c (chans w) with
          | Some (_, cs) => Ok (World (requester w) cs (log w))
          | None => Ok w
          end
      | None => Ok w
      end
  end.

Inductive exit :=
  | MethodNotAllowed
  | ClientClosed
  | TooManyErrors
  | Served                  (* the snapshot was written *)
  | NotFound                (* no handler for the path *)
  | Waiting (errC : Z).     (* the script is used up, the handler has not
                               returned; [errC] is the error counter of the
                               streaming loop, 0 in [handleSnapshot] *)

Definition returned (e : exit) : bool :=
  match e with Waiting _ => false | _ => true end.

Definition add_log (l : logline) (w : world) : world :=
  World (requester w) (chans w) (log w ++ [l]).

(** The [for { select { ... } }] loop of [handleMJPEG]. *)
Fixpoint mjpeg_loop (script : list step) (imgs : nat) (uid : string)
    (errC : Z) (res : response) (w : world)
  : result (exit * response * world) :=
  match script with
  | [] => Ok (Waiting errC, res, w)
  | Env a :: script' =>
      w' ← act a w; mjpeg_loop script' imgs uid errC res w'
  | CloseNotify :: _ => Ok (ClientClosed, res, w)
  | Recv conn :: script' =>
      match chan_recv imgs (chans w) with
      | None => mjpeg_loop script' imgs uid errC res w
      | Some (img, cs) =>
          let w1 := World (requester w) cs (log w) in
          let r := closure_result conn res in
          let res1 := render img r res in
          if part_ok r then mjpeg_loop script' imgs uid 0 res1 w1
          else
            let w2 := add_log (LUnable uid) w1 in
            let errC' := (errC + 1)%Z in
            if (5 <? errC')%Z
            then Ok (TooManyErrors, res1, add_log (LTooMany uid) w2)
            else mjpeg_loop script' imgs uid errC' res1 w2
      end
  end.

(** [handleMJPEG].  The response writers of net/http implement
    [http.CloseNotifier], so the type assertion is left out. *)
Definition handleMJPEG (r : request) (imgs : nat) (uid : string)
    (script : list step) (res : response) (w : world)
  : result (exit * response * world) :=
  if negb (String.eqb (method r) "GET")
  then Ok (MethodNotAllowed, http_Error "405 Method Not Allowed" 405 res, w)
  else
    let res1 := header_add "Connection" "close" res in
    let res2 := header_add "Cache-Control" "no-store, no-cache" res1 in
    let res3 := header_add "Content-Type"
                  "multipart/x-mixed-replace;boundary=--boundary" res2 in
    '(e, res4, w') ← mjpeg_loop script imgs uid 0 res3 w;
    (* defer mimeWriter.Close(): the closing boundary, unless the last part
       has kept an error *)
    Ok (e, if returned e && negb (kept_error res4)
           then write ClosingBoundary res4 else res4, w').

(** The deferred function of [handle] and [handleSnapshot]. *)
Definition deferred (uid : string) (imgChan : nat) (w : world) : result world :=
  let w1 := deregisterImgChan uid w in
  cs ← chan_close imgChan (chans w1);
  Ok (World (requester w1) cs (log w1)).

(** [handle]; [uid] is the id drawn by [uuid.NewV4]. *)
Definition handle (uid : string) (r : request) (script : list step)
    (w : world) : result (exit * response * world) :=
  let '(imgChan, w1) := make_chan 10 w in
  let w2 := registerImgChan uid imgChan w1 in
  '(e, res, w3) ← handleMJPEG r imgChan uid script new_response w2;
  if returned e
  then w4 ← deferred uid imgChan w3; Ok (e, res, w4)
  else Ok (e, res, w3).

(** [img := <-imgChan] *)
Fixpoint snapshot_wait (script : list step) (imgChan : nat) (w : world)
  : result (option frame * world) :=
  match script with
  | [] => Ok (None, w)
  | Env a :: script' => w' ← act a w; snapshot_wait script' imgChan w'
  | CloseNotify :: script' => snapshot_wait script' imgChan w
  | Recv _ :: script' =>
      match chan_recv imgChan (chans w) with
      | None => snapshot_wait script' imgChan w
      | Some (img, cs) => Ok (Some img, World (requester w) cs (log w))
      end
  end.

Definition handleSnapshot (uid : string) (r : request) (script : list step)
    (w : world) : result (exit * response * world) :=
  let '(imgChan, w1) := make_chan 10 w in
  let w2 := registerImgChan uid imgChan w1 in
  '(got, w3) ← snapshot_wait script imgChan w2;
  match got with
  | None => Ok (Waiting 0, new_response, w3)
  | Some img =>
      let res1 := header_add "Cache-Control" "no-store, no-cache" new_response in
      let res2 := header_add "Connection" "close" res1 in
      let res3 := header_set "Content-Type" "image/jpeg" res2 in
      let res4 := write (Raw img) res3 in
      w4 ← deferred uid imgChan w3; Ok (Served, res4, w4)
  end.

(** The routes registered in [main]. *)
Definition serve (uid : string) (r : request) (script : list step)
    (w : world) : result (exit * response * world) :=
  if String.eqb (path r) "/mjpeg" then handle uid r script w
  else if String.eqb (path r) "/snapshot.jpg" then handleSnapshot uid r script w
  else Ok (NotFound, http_Error "404 page not found" 404 new_response, w).

Definition empty_world : world := World ∅ [] [].


(** ** Goroutines started by the reader *)

(** Every [go sendImage(img)] starts a goroutine of its own.  [picks] is a
    run of the scheduler: each entry is the position, among the goroutines
    still waiting to run, of the one that runs next. *)
Fixpoint schedule (picks : list nat) (pending : list frame) : list frame :=
  match picks with
  | [] => []
  | i :: picks' =>
      match pending !! i with
      | Some f => f :: schedule picks' (delete i pending)
      | None => schedule picks' pending
      end
  end.

(** A sequence of hub actions, one after the other. *)
Fixpoint run (script : list action) (w : world) : result world :=
  match script with
  | [] => Ok w
  | a :: script' => w' ← act a w; run script' w'
  end.

(** The queue of the subscriber registered as [id]. *)
Definition queue (id : string) (w : world) : list frame :=
  match requester w !! id with
  | Some c => match chans w !! c with
              | Some ch => c_buf ch
              | None => []
              end
  | None => []
  end.

(** The frames the subscriber registered as [id] takes from its queue during
    [script], in the order it takes them. *)
Fixpoint received (id : string) (script : list action) (w : world)
  : list frame :=
  match script with
  | [] => []
  | a :: script' =>
      match act a w with
      | Ok w' =>
          (match a with
           | Take id' => if decide (id' = id) then option_list (head (queue id w))
                         else []
           | _ => []
           end) ++ received id script' w'
      | _ => []
      end
  end.

(** The frames published during [script], in the order [sendImage] ran. *)
Definition published (script : list action) : list frame :=
  omap (λ a, match a with Publish jpg => Some jpg | _ => None end) script.

(** The queue of [id] is below the backlog watermark in every state the
    script passes through. *)
Fixpoint below_watermark (id : string) (script : list action) (w : world)
  : bool :=
  (length (queue id w) <? maxBacklog) &&
  match script with
  | [] => true
  | a :: script' =>
      match act a w with
      | Ok w' => below_watermark id script' w'
      | _ => true
      end
  end.

(** The reader and the hub together: the reader works through [chunks], the
    goroutines it started run as [picks] says, and a subscriber registered
    beforehand as [id] is looked at afterwards. *)
Definition broadcast (stream : list byte) (chunks picks : list nat)
    (id : string) : list frame * list frame :=
  let validated := frames (main stream chunks) in
  let order := schedule picks validated in
  match run (Join id :: (Publish <$> order)) empty_world with
  | Ok w => (validated, queue id w)
  | _ => (validated, [])
  end.

(** ** Notions used in the statements *)

Definition valid_jpeg (b : list byte) : bool :=
  HasPrefix b beginOfJPEG && HasSuffix b endOfJPEG.

Definition ev_slice (e : event) : slice :=
  match e with GoSendImage s | WarnInvalid s => s end.

(** The unconsumed region [buf[br:bw]]. *)
Definition unconsumed (st : reader) : list byte :=
  bytes_of (heap st) (reslice (buf st) (br st) (bw st)).

(** What one turn of the extraction loop makes: the candidate image. *)
Definition candidate (eoj : Z) (st : reader) : slice :=
  Slice (length (heap st)) 0 (eoj + 2 - br st).

(** An image in the trace sits in an array of its own, and was classified by
    its bytes. *)
Definition ev_ok (h : store) (e : event) : Prop :=
  0 < s_arr (ev_slice e) < length h ∧
  let b := bytes_of h (ev_slice e) in
  match e with
  | GoSendImage _ =>
      valid_jpeg b = true ∧
      Index b endOfJPEG = (Z.of_nat (length b) - 2)%Z
  | WarnInvalid _ => valid_jpeg b = false
  end.

Record reader_ok (st : reader) : Prop := ReaderOk {
  ok_arr : s_arr (buf st) = 0;
  ok_off : s_off (buf st) = 0%Z;
  ok_size : a_size <$> heap st !! 0 = Some (s_len (buf st));
  ok_br : (0 ≤ br st ≤ bw st)%Z;
  ok_bw : (bw st ≤ s_len (buf st))%Z;
  ok_trace : Forall (ev_ok (heap st)) (trace st)
}.

(** [st'] is a later state of the reader than [st]: arrays other than the
    working buffer are as they were, and the trace has only grown. *)
Record later (st st' : reader) : Prop := Later {
  lt_buf : buf st' = buf st;
  lt_len : length (heap st) ≤ length (heap st');
  lt_keep : ∀ a, 0 < a < length (heap st) → heap st' !! a = heap st !! a;
  lt_trace : trace st `prefix_of` trace st'
}.

(** The filled part of the working buffer, [buf[0:bw]]. *)
Definition filled (st : reader) : list byte :=
  bytes_of (heap st) (reslice (buf st) 0 (bw st)).

(** The bytes of the images handed to [sendImage] so far. *)
Definition frames_of (st : reader) : list (list byte) :=
  bytes_of (heap st) <$> spawned (trace st).

(** [fs] are pieces of [s] that do not overlap, in the order in which they
    lie in [s]. *)
Fixpoint cut_from (fs : list (list byte)) (s : list byte) : Prop :=
  match fs with
  | [] => True
  | f :: fs' => ∃ gap rest, s = gap ++ f ++ rest ∧ cut_from fs' rest
  end.

(** The bytes read so far end with the unconsumed ones, and the frames
    published so far are pieces of what lies before them. *)
Definition pieces_inv (c : list byte) (st : reader) : Prop :=
  ∃ before, c = before ++ unconsumed st ∧ cut_from (frames_of st) before.

(** An image as the encoder writes it: it starts with the start marker, its
    first end marker is its last two bytes, and it fits the buffer. *)
Definition whole_jpeg (j : list byte) : Prop :=
  HasPrefix j beginOfJPEG = true ∧
  Index j endOfJPEG = (Z.of_nat (length j) - 2)%Z ∧
  (Z.of_nat (length j) ≤ bufsize)%Z.

(** The reads [ks] bring exactly the image [j], each of them some bytes. *)
Definition brings (j : list byte) (ks : list nat) : Prop :=
  sum_list ks = length j ∧ Forall (λ k, 0 < k) ks.

(** What a publish does to one queue: enqueue below the watermark, drop at
    or above it. *)
Definition offer (jpg : frame) (ch : chan) : chan :=
  if length (c_buf ch) <? maxBacklog
  then Chan (c_buf ch ++ [jpg]) (c_cap ch) (c_closed ch)
  else ch.

(** The registry as the handlers leave it: every entry is an open channel
    with room beyond the watermark, and no channel is registered twice. *)
Record hub_wf (w : world) : Prop := HubWf {
  wf_open : ∀ id c, requester w !! id = Some c →
            ∃ ch, chans w !! c = Some ch ∧ c_closed ch = false ∧
                  maxBacklog ≤ c_cap ch;
  wf_inj : ∀ id1 id2 c, requester w !! id1 = Some c →
           requester w !! id2 = Some c → id1 = id2
}.

(** What an action does to the queue of the subscriber [uid]. *)
Definition next_queue (uid : string) (a : action) (q : list frame)
  : list frame :=
  match a with
  | Publish jpg => if length q <? maxBacklog then q ++ [jpg] else q
  | Take id => if decide (id = uid) then tail q else q
  | _ => q
  end.

(** How often a line was logged. *)
Definition count_log (l : logline) (w : world) : nat :=
  length (filter (λ x, x = l) (log w)).

(** The log of [w'] continues that of [w] with lines that are not about
    [uid] joining or leaving. *)
Definition log_extends (uid : string) (w w' : world) : Prop :=
  ∃ extra, log w' = log w ++ extra ∧
           Forall (λ l, l ≠ LRegistered uid ∧ l ≠ LRemoved uid) extra.

Definition two_subscribers : world :=
  World (<["a" := 0]> (<["b" := 1]> ∅))
        [Chan [j4; j5; j6; j4; j5] 10 false; Chan [] 10 false] [].

(** No registered queue holds more than [maxBacklog] frames. *)
Definition backlog_bounded (w : world) : Prop :=
  ∀ id, length (queue id w) ≤ maxBacklog.

(** The rest of the program leaves the handler's own id alone: ids come from
    [uuid.NewV4], and only the handler that drew an id registers it, removes
    it or receives from its channel. *)
Definition avoids (uid : string) (s : step) : Prop :=
  match s with
  | Env a => a ≠ Join uid ∧ a ≠ Leave uid ∧ a ≠ Take uid
  | _ => True
  end.

(** The count of consecutive failed part writes after the renders [rs]. *)
Definition consecutive_failures (rs : list part_result) : Z :=
  fold_left (λ n r, if part_ok r then 0 else n + 1)%Z rs 0%Z.

(** The frames published while a handler runs. *)
Definition spub (script : list step) : list frame :=
  omap (λ s, match s with Env (Publish jpg) => Some jpg | _ => None end) script.

Definition all_prefixes_ok (rs : list part_result) : Prop :=
  ∀ p, p `prefix_of` rs → (consecutive_failures p ≤ 5)%Z.

(** What holds of the registry once a handler for [uid] has been started in
    [w] and is found in [w'] with exit [e]. *)
Definition cleaned_up (uid : string) (e : exit) (w w' : world) : Prop :=
  hub_wf w' ∧
  count_log (LRegistered uid) w' = S (count_log (LRegistered uid) w) ∧
  if returned e
  then requester w' !! uid = None ∧
       count_log (LRemoved uid) w' = S (count_log (LRemoved uid) w) ∧
       ∃ ch, chans w' !! length (chans w) = Some ch ∧ c_closed ch = true
  else requester w' !! uid = Some (length (chans w)) ∧
       count_log (LRemoved uid) w' = count_log (LRemoved uid) w.

Definition mjpeg_headers : list (string * string) :=
  [("Connection", "close"); ("Cache-Control", "no-store, no-cache");
   ("Content-Type", "multipart/x-mixed-replace;boundary=--boundary")].

Definition six_failures : list step :=
  [Env (Publish j4); Recv WriteFailed; Env (Publish j5); Recv CreatePartFailed;
   Env (Publish j6); Recv WriteFailed; Env (Publish j4); Recv WriteFailed;
   Env (Publish j5); Recv WriteFailed; Env (Publish j6); Recv WriteFailed;
   Env (Publish j4); Recv PartOk].

(** The first frame published during [script], with what follows it. *)
Fixpoint first_publish (script : list step) : option (frame * list step) :=
  match script with
  | [] => None
  | Env (Publish jpg) :: rest => Some (jpg, rest)
  | _ :: rest => first_publish rest
  end.

(** The handler gets to receive at some point of [script]. *)
Definition has_recv (script : list step) : bool :=
  existsb (λ s, match s with Recv _ => true | _ => false end) script.

Definition snapshot_headers : list (string * string) :=
  [("Cache-Control", "no-store, no-cache"); ("Connection", "close");
   ("Content-Type", "image/jpeg")].

(** What the snapshot handler answers: the first frame published after it
    registered, once it got to receive; nothing until then. *)
Definition snapshot_reply (script : list step) : exit * response :=
  match first_publish script with
  | Some (jpg, rest) =>
      if has_recv rest
      then (Served, Response 200 snapshot_headers [Raw jpg] [])
      else (Waiting 0, new_response)
  | None => (Waiting 0, new_response)
  end.

(** The MIME part [handleMJPEG] writes for an image. *)
Definition part_of (img : frame) : piece :=
  Part [("Content-Type", "image/jpeg");
        ("Content-Length", pretty (length img))] img.

(** What the renders [rs] have put into the body: a part for an image that
    went out, the start of a part for an image that did not, nothing for a
    part that could not be created. *)
Definition parts_written (rs : list (frame * part_result)) : list piece :=
  rs ≫= λ ir, match ir.2 with
               | PartOk => [part_of ir.1]
               | WriteFailed =>
                   [PartStart [("Content-Type", "image/jpeg");
                               ("Content-Length", pretty (length ir.1))]]
               | CreatePartFailed => []
               end.

(** The renders of a session: none has failed on its image, or one has, and
    then no later one got as far as a part. *)
Definition write_error_is_final (rs : list (frame * part_result)) : Prop :=
  Forall (λ ir, ir.2 ≠ WriteFailed) rs ∨
  ∃ rs1 img rs2, rs = rs1 ++ (img, WriteFailed) :: rs2 ∧
                 Forall (λ ir, ir.2 ≠ WriteFailed) rs1 ∧
                 Forall (λ ir, ir.2 = CreatePartFailed) rs2.

(** A client that takes every frame as soon as it is published, and whose
    connection takes every write. *)
Definition keeps_up (fs : list frame) : list step :=
  fs ≫= λ f, [Env (Publish f); Recv PartOk].

(** * Properties *)

(** ** Byte arrays and slices *)

Lemma a_get_length a lo n : length (a_get a lo n) = n.
Proof.
  unfold a_get. rewrite length_app, length_replicate, length_take. lia.
Qed.

Lemma a_get_padded a lo n K :
  lo + n ≤ length (a_data a) + K →
  a_get a lo n = take n (drop lo (a_data a ++ replicate K x00)).
Proof.
  intros HK. unfold a_get.
  rewrite drop_app, take_app, drop_replicate, take_replicate.
  rewrite length_take, !length_drop. f_equal. f_equal. lia.
Qed.

Lemma a_get_take a lo n m :
  n ≤ m → a_get a lo n = take n (a_get a lo m).
Proof.
  intros Hnm.
  rewrite (a_get_padded a lo n (lo + m)), (a_get_padded a lo m (lo + m)) by lia.
  rewrite take_take. f_equal. lia.
Qed.

Lemma a_get_put_0 a bs : a_get (a_put a 0 bs) 0 (length bs) = bs.
Proof.
  unfold a_get, a_put. simpl. rewrite drop_0.
  rewrite take_app_length. rewrite Nat.sub_diag. simpl. apply app_nil_r.
Qed.

Lemma write_at_length h s bs : length (write_at h s bs) = length h.
Proof. unfold write_at. destruct (h !! s_arr s); [apply length_insert | done]. Qed.

Lemma write_at_lookup_ne h s bs a :
  a ≠ s_arr s → write_at h s bs !! a = h !! a.
Proof.
  intros Hne. unfold write_at. destruct (h !! s_arr s); [|done].
  by rewrite list_lookup_insert_ne.
Qed.

Lemma write_at_size h s bs n :
  a_size <$> h !! n = a_size <$> write_at h s bs !! n.
Proof.
  unfold write_at. destruct (h !! s_arr s) as [a|] eqn:Ha; [|done].
  destruct (decide (n = s_arr s)) as [->|Hne].
  - rewrite list_lookup_insert_eq by (by eapply lookup_lt_Some).
    by rewrite Ha.
  - by rewrite list_lookup_insert_ne.
Qed.

Lemma copy_length dst src h : length (copy dst src h) = length h.
Proof. apply write_at_length. Qed.

Lemma copy_lookup_ne dst src h a :
  a ≠ s_arr dst → copy dst src h !! a = h !! a.
Proof. apply write_at_lookup_ne. Qed.

Lemma bytes_of_ext h h' s :
  h' !! s_arr s = h !! s_arr s → bytes_of h' s = bytes_of h s.
Proof. unfold bytes_of. by intros ->. Qed.

Lemma bytes_of_length h s :
  s_arr s < length h → length (bytes_of h s) = Z.to_nat (s_len s).
Proof.
  intros Hlt. unfold bytes_of.
  destruct (lookup_lt_is_Some_2 h (s_arr s) Hlt) as [a ->].
  apply a_get_length.
Qed.

Lemma bytes_of_write_at h s bs :
  s_arr s < length h → s_off s = 0%Z → length bs = Z.to_nat (s_len s) →
  bytes_of (write_at h s bs) s = bs.
Proof.
  intros Hlt Hoff Hlen. unfold bytes_of, write_at.
  destruct (lookup_lt_is_Some_2 h (s_arr s) Hlt) as [a Ha]. rewrite Ha.
  rewrite list_lookup_insert_eq by done.
  rewrite Hoff, <- Hlen. apply a_get_put_0.
Qed.

Lemma bytes_of_reslice_take h s lo hi1 hi2 :
  (hi1 ≤ hi2)%Z →
  bytes_of h (reslice s lo hi1) =
  take (Z.to_nat (hi1 - lo)) (bytes_of h (reslice s lo hi2)).
Proof.
  intros Hle. unfold bytes_of, reslice. simpl.
  destruct (h !! s_arr s); [|by rewrite take_nil].
  apply a_get_take. lia.
Qed.

(** ** [bytes.HasPrefix], [bytes.HasSuffix], [bytes.Index] *)

Lemma byte_eqb_eq x y : Byte.eqb x y = true ↔ x = y.
Proof. split; [apply Byte.byte_dec_bl | apply Byte.byte_dec_lb]. Qed.

Lemma HasPrefix_spec s p :
  HasPrefix s p = true ↔ take (length p) s = p.
Proof.
  revert s. induction p as [|x p IH]; intros s; simpl.
  - by split.
  - destruct s as [|y s]; simpl; [by split|].
    rewrite andb_true_iff, IH, byte_eqb_eq. split.
    + by intros [-> ->].
    + intros [= -> H]. by rewrite H.
Qed.

Lemma HasPrefix_length s p : HasPrefix s p = true → length p ≤ length s.
Proof.
  intros H%HasPrefix_spec. rewrite <- H at 1. rewrite length_take. lia.
Qed.

Lemma HasPrefix_take s p n :
  HasPrefix (take n s) p = true → HasPrefix s p = true.
Proof.
  intros H. pose proof (HasPrefix_length _ _ H) as Hl.
  rewrite length_take in Hl.
  apply HasPrefix_spec in H. apply HasPrefix_spec.
  rewrite take_take in H. by replace (length p `min` n) with (length p) in H by lia.
Qed.

Lemma Index_ge s sep : (-1 ≤ Index s sep)%Z.
Proof.
  induction s as [|x s IH]; simpl.
  - destruct (HasPrefix [] sep); lia.
  - destruct (HasPrefix (x :: s) sep); [lia|].
    destruct (Z.ltb_spec (Index s sep) 0); lia.
Qed.

Lemma Index_bound s sep :
  (0 ≤ Index s sep)%Z → (Index s sep + Z.of_nat (length sep) ≤ Z.of_nat (length s))%Z.
Proof.
  induction s as [|x s IH]; simpl.
  - destruct (HasPrefix [] sep) eqn:E; [|lia].
    apply HasPrefix_length in E. simpl in E. lia.
  - destruct (HasPrefix (x :: s) sep) eqn:E.
    + apply HasPrefix_length in E. simpl in E. lia.
    + destruct (Z.ltb_spec (Index s sep) 0); lia.
Qed.

Lemma Index_found s sep :
  (0 ≤ Index s sep)%Z → HasPrefix (drop (Z.to_nat (Index s sep)) s) sep = true.
Proof.
  induction s as [|x s IH]; simpl.
  - destruct (HasPrefix [] sep) eqn:E; [done | lia].
  - destruct (HasPrefix (x :: s) sep) eqn:E; [done|].
    destruct (Z.ltb_spec (Index s sep) 0); [lia|]. intros _.
    replace (Z.to_nat (1 + Index s sep)) with (S (Z.to_nat (Index s sep))) by lia.
    simpl. apply IH. lia.
Qed.

Lemma Index_first s sep i :
  HasPrefix (drop i s) sep = true → i ≤ length s →
  (0 ≤ Index s sep ≤ Z.of_nat i)%Z.
Proof.
  revert i. induction s as [|x s IH]; intros i Hp Hi; simpl in *.
  - rewrite drop_nil in Hp. rewrite Hp. lia.
  - destruct (HasPrefix (x :: s) sep) eqn:E; [lia|].
    destruct i as [|i]; [simpl in Hp; congruence|]. simpl in Hp.
    specialize (IH i Hp ltac:(lia)).
    destruct (Z.ltb_spec (Index s sep) 0); lia.
Qed.

(** A proper prefix of a span that runs up to the first end marker does not
    end in that marker. *)
Lemma suffix_of_prefix_full u m :
  (0 ≤ Index u endOfJPEG)%Z →
  m ≤ Z.to_nat (Index u endOfJPEG) + 2 →
  HasSuffix (take m u) endOfJPEG = true →
  m = Z.to_nat (Index u endOfJPEG) + 2.
Proof.
  intros Hi Hm Hs. pose proof (Index_bound _ _ Hi) as Hb.
  change (length endOfJPEG) with 2 in Hb.
  assert (Hmin : m `min` length u = m) by lia.
  unfold HasSuffix in Hs. apply andb_true_iff in Hs as [Hl Hp].
  apply Nat.leb_le in Hl. rewrite length_take, Hmin in Hl, Hp.
  change (length endOfJPEG) with 2 in Hl, Hp.
  assert (Hd : drop (m - 2) (take m u) = take 2 (drop (m - 2) u)).
  { rewrite take_drop_commute. by replace (m - 2 + 2) with m by lia. }
  rewrite Hd in Hp. apply HasPrefix_take in Hp.
  apply Index_first in Hp; [|lia]. clear Hd. lia.
Qed.

Lemma Index_unfold s sep :
  Index s sep =
  if HasPrefix s sep then 0%Z
  else match s with
       | [] => (-1)%Z
       | _ :: s' => if (Index s' sep <? 0)%Z then (-1)%Z
                    else (1 + Index s' sep)%Z
       end.
Proof. by destruct s. Qed.

(** The span that runs up to the first occurrence of [sep] holds [sep] once,
    at its end. *)
Lemma Index_take s sep :
  (0 ≤ Index s sep)%Z →
  Index (take (Z.to_nat (Index s sep) + length sep) s) sep = Index s sep.
Proof.
  induction s as [|x s IH]; intros Hi.
  - by rewrite take_nil.
  - rewrite (Index_unfold (x :: s)) in Hi |- *.
    destruct (HasPrefix (x :: s) sep) eqn:E.
    + rewrite Index_unfold.
      assert (HasPrefix (take (Z.to_nat 0 + length sep) (x :: s)) sep = true) as ->; [|done].
      apply HasPrefix_spec. rewrite take_take.
      apply HasPrefix_spec in E. rewrite <- E at 3. f_equal. lia.
    + destruct (Z.ltb_spec (Index s sep) 0); [lia|].
      replace (Z.to_nat (1 + Index s sep) + length sep)
        with (S (Z.to_nat (Index s sep) + length sep)) by lia.
      rewrite firstn_cons, Index_unfold.
      destruct (HasPrefix (x :: take _ s) sep) eqn:E'.
      { rewrite <- firstn_cons in E'. apply HasPrefix_take in E'. congruence. }
      rewrite IH by lia.
      destruct (Z.ltb_spec (Index s sep) 0); lia.
Qed.

(** ** Invariants of the reader *)

Lemma later_refl st : later st st.
Proof. by split. Qed.

Lemma later_trans st1 st2 st3 : later st1 st2 → later st2 st3 → later st1 st3.
Proof.
  intros [B1 L1 K1 T1] [B2 L2 K2 T2]. split.
  - congruence.
  - lia.
  - intros a Ha. rewrite K2 by lia. by apply K1.
  - by etrans.
Qed.

Lemma ev_ok_keep h h' e :
  length h ≤ length h' →
  (∀ a, 0 < a < length h → h' !! a = h !! a) →
  ev_ok h e → ev_ok h' e.
Proof.
  intros Hl Hk [Hr Hv]. split; [lia|]. simpl in *.
  by rewrite (bytes_of_ext h h') by apply Hk, Hr.
Qed.

Lemma init_ok : reader_ok init.
Proof. split; simpl; try done; try lia. Qed.

Lemma ok_heap st : reader_ok st → 0 < length (heap st).
Proof.
  intros [_ _ Hs _ _ _]. destruct (heap st !! 0) eqn:E; [|done].
  by eapply lookup_lt_Some.
Qed.

Lemma slide_ok st : reader_ok st → reader_ok (slide st) ∧ later st (slide st).
Proof.
  intros Hok. pose proof (ok_heap _ Hok) as Hh.
  destruct Hok as [Ha Ho Hsz Hb Hw Ht]. unfold slide.
  destruct (Z.ltb_spec 0 (br st)); [|by split; [split|apply later_refl]].
  assert (Hk : ∀ a, 0 < a < length (heap st) →
    copy (buf st) (reslice (buf st) (br st) (bw st)) (heap st) !! a = heap st !! a).
  { intros a Hlt. apply copy_lookup_ne. lia. }
  split; split; simpl; try done; try lia.
  - unfold copy. by rewrite <- write_at_size.
  - eapply Forall_impl; [done|]. intros e. apply ev_ok_keep; [|done].
    by rewrite copy_length.
  - by rewrite copy_length.
Qed.

Lemma unconsumed_length st :
  reader_ok st → length (unconsumed st) = Z.to_nat (bw st - br st).
Proof.
  intros Hok. pose proof (ok_heap _ Hok) as Hh.
  destruct Hok as [Ha Ho Hsz Hb Hw Ht]. unfold unconsumed.
  rewrite bytes_of_length; simpl; [done | lia].
Qed.

Lemma extract_one_inv eoj st st' :
  extract_one eoj st = Some st' →
  ∃ e, ev_slice e = candidate eoj st ∧
       trace st' = trace st ++ [e] ∧
       valid_jpeg (bytes_of (heap st') (candidate eoj st)) =
         match e with GoSendImage _ => true | WarnInvalid _ => false end ∧
       buf st' = buf st ∧ br st' = (br st + (eoj + 2))%Z ∧ bw st' = bw st ∧
       length (heap st') = S (length (heap st)) ∧
       (∀ a, a < length (heap st) → heap st' !! a = heap st !! a).
Proof.
  unfold extract_one, make. change (Z.of_nat (length endOfJPEG)) with 2%Z.
  destruct (Z.ltb_spec (eoj + 2 - br st) 0); [done|].
  fold (candidate eoj st).
  set (h2 := copy _ _ _).
  assert (Hlen : length h2 = S (length (heap st))).
  { unfold h2. rewrite copy_length, length_app. simpl. lia. }
  assert (Hkeep : ∀ a, a < length (heap st) → h2 !! a = heap st !! a).
  { intros a Hlt. unfold h2. rewrite copy_lookup_ne by (simpl; lia).
    by apply lookup_app_l. }
  rewrite <- negb_andb. fold (valid_jpeg (bytes_of h2 (candidate eoj st))).
  destruct (valid_jpeg _) eqn:E; cbn [negb]; intros [= <-]; cbn [trace heap buf br bw].
  - by exists (GoSendImage (candidate eoj st)).
  - by exists (WarnInvalid (candidate eoj st)).
Qed.

Lemma candidate_bytes eoj st st' :
  extract_one eoj st = Some st' →
  s_arr (buf st) < length (heap st) → (0 ≤ br st)%Z →
  bytes_of (heap st') (candidate eoj st) =
  take (Z.to_nat (eoj + 2 - br st))
       (bytes_of (heap st) (reslice (buf st) (br st) (br st + (eoj + 2)))).
Proof.
  intros He Hbuf Hbr.
  assert (heap st' = copy (candidate eoj st)
            (reslice (buf st) (br st) (br st + (eoj + 2)))
            (heap st ++ [Array [] (eoj + 2 - br st)])
          ∧ (0 ≤ eoj + 2 - br st)%Z) as [-> Hn].
  { revert He. unfold extract_one, make.
    change (Z.of_nat (length endOfJPEG)) with 2%Z.
    destruct (Z.ltb_spec (eoj + 2 - br st) 0); [done|].
    fold (candidate eoj st). by destruct (_ || _); intros [= <-]. }
  set (src := reslice _ _ _). set (h1 := heap st ++ _).
  assert (Hsrc : bytes_of h1 src = bytes_of (heap st) src).
  { apply bytes_of_ext. by apply lookup_app_l. }
  assert (Hlen : length (bytes_of (heap st) src) = Z.to_nat (eoj + 2)).
  { rewrite bytes_of_length by done. simpl. lia. }
  unfold copy. rewrite Hsrc.
  replace (s_len (candidate eoj st) `min` s_len src)%Z
    with (eoj + 2 - br st)%Z by (unfold src; simpl; lia).
  apply bytes_of_write_at.
  - unfold h1. rewrite length_app. simpl. lia.
  - done.
  - rewrite length_take, Hlen. unfold src. simpl. lia.
Qed.

(** A candidate that ends in the end marker is the whole span from the
    cursor through the first end marker, and was taken with the cursor at
    the start of the buffer. *)
Lemma candidate_full st st' :
  let eoj := Index (unconsumed st) endOfJPEG in
  (0 ≤ eoj)%Z → s_arr (buf st) < length (heap st) → (0 ≤ br st)%Z →
  extract_one eoj st = Some st' →
  HasSuffix (bytes_of (heap st') (candidate eoj st)) endOfJPEG = true →
  br st = 0%Z ∧
  (br st + (eoj + 2) ≤ bw st)%Z ∧
  bytes_of (heap st') (candidate eoj st) =
    bytes_of (heap st) (reslice (buf st) (br st) (br st + (eoj + 2))) ∧
  bytes_of (heap st') (candidate eoj st) =
    take (Z.to_nat eoj + 2) (unconsumed st).
Proof.
  intros eoj Hi Hbuf Hbr He Hs.
  pose proof (Index_bound _ _ Hi) as Hb. fold eoj in Hb.
  unfold unconsumed in Hb. rewrite bytes_of_length in Hb by done.
  change (length endOfJPEG) with 2 in Hb. simpl in Hb.
  assert (Hle : (br st + (eoj + 2) ≤ bw st)%Z) by lia.
  assert (Hn : (0 ≤ eoj + 2 - br st)%Z).
  { revert He. unfold extract_one, make.
    change (Z.of_nat (length endOfJPEG)) with 2%Z.
    by destruct (Z.ltb_spec (eoj + 2 - br st) 0). }
  rewrite (candidate_bytes _ _ _ He Hbuf Hbr) in Hs |- *.
  rewrite (bytes_of_reslice_take _ _ _ _ (bw st) Hle) in Hs |- *.
  fold (unconsumed st) in Hs |- *.
  rewrite take_take in Hs.
  replace (Z.to_nat (eoj + 2 - br st) `min` Z.to_nat (br st + (eoj + 2) - br st))
    with (Z.to_nat (eoj + 2 - br st)) in Hs by lia.
  apply suffix_of_prefix_full in Hs; [|done|fold eoj; lia]. fold eoj in Hs.
  assert (br st = 0%Z) as H0 by lia.
  rewrite take_take. rewrite H0 in *.
  replace (Z.to_nat (eoj + 2 - 0) `min` Z.to_nat (0 + (eoj + 2) - 0))
    with (Z.to_nat eoj + 2) by lia.
  replace (Z.to_nat (0 + (eoj + 2) - 0)) with (Z.to_nat eoj + 2) by lia.
  done.
Qed.

Lemma extract_one_ok st st' :
  let eoj := Index (unconsumed st) endOfJPEG in
  reader_ok st → (0 ≤ eoj)%Z →
  extract_one eoj st = Some st' →
  reader_ok st' ∧ later st st' ∧
  br st' = (br st + (eoj + 2))%Z ∧ bw st' = bw st ∧
  (br st + (eoj + 2) ≤ bw st)%Z.
Proof.
  intros eoj Hok He HE. pose proof (ok_heap _ Hok) as Hh.
  pose proof Hok as [Ha Ho Hsz Hb Hw Ht].
  pose proof (Index_bound _ _ He) as Hle. fold eoj in Hle.
  rewrite unconsumed_length in Hle by done.
  change (length endOfJPEG) with 2 in Hle.
  pose proof HE as
    (e & Hs & Htr & Hv & Hbuf & Hbr & Hbw & Hlen & Hkeep)%extract_one_inv.
  split; [|split; [|split; [done|split; [done|lia]]]].
  - split; rewrite ?Hbuf, ?Hbr, ?Hbw, ?Hlen, ?Htr; try done; try lia.
    { by rewrite Hkeep. }
    apply Forall_app. split.
    + eapply Forall_impl; [done|]. intros e'. apply ev_ok_keep; [lia|].
      intros a ?. apply Hkeep. lia.
    + apply Forall_singleton. split.
      * rewrite Hs, Hlen. simpl. lia.
      * simpl. rewrite Hs. destruct e; [|done]. split; [done|].
        apply andb_true_iff in Hv as [_ Hsuf].
        destruct (candidate_full st st' He ltac:(lia) ltac:(lia) HE Hsuf)
          as (_ & _ & _ & Hc).
        fold eoj in Hc. rewrite Hc. rewrite length_take, unconsumed_length by done.
        replace (Z.to_nat eoj + 2) with (Z.to_nat eoj + length endOfJPEG) by done.
        unfold eoj at 1. rewrite Index_take by done. fold eoj.
        change (length endOfJPEG) with 2. lia.
  - split; rewrite ?Hlen, ?Htr; try done; try lia.
    + intros a ?. apply Hkeep. lia.
    + by apply prefix_app_r.
Qed.

Lemma extract_loop_ok fuel st :
  reader_ok st → Z.to_nat (bw st - br st) ≤ fuel →
  match extract_loop fuel st with
  | Done st' =>
      reader_ok st' ∧ later st st' ∧ (Index (unconsumed st') endOfJPEG < 0)%Z
  | Panicked st' => reader_ok st' ∧ later st st'
  | OutOfFuel => False
  end.
Proof.
  revert st. induction fuel as [|fuel IH]; intros st Hok Hfuel; simpl;
    fold (unconsumed st);
    destruct (Z.ltb_spec (Index (unconsumed st) endOfJPEG) 0) as [Hlt|Hge];
    try (split; [done|split; [apply later_refl|done]]);
    pose proof (Index_bound _ _ Hge) as Hb;
    rewrite unconsumed_length in Hb by done;
    change (length endOfJPEG) with 2 in Hb.
  - lia.
  - destruct (extract_one _ st) as [st'|] eqn:E;
      [|by split; [|apply later_refl]].
    apply extract_one_ok in E as (Hok' & Hl & Hbr & Hbw & Hle); [|done|done].
    specialize (IH st' Hok' ltac:(lia)).
    destruct (extract_loop fuel st') as [st''|st''|]; [| |done].
    + destruct IH as (? & ? & ?). eauto using later_trans.
    + destruct IH as (? & ?). eauto using later_trans.
Qed.

Lemma Read_ok st k stream n stream' h' :
  reader_ok st →
  Read (reslice (buf st) (bw st) (s_len (buf st))) k stream (heap st)
    = Some (n, stream', h') →
  let st2 := Reader h' (buf st) (br st) (bw st + n) (trace st) in
  (0 ≤ n)%Z ∧ reader_ok st2 ∧ later st st2.
Proof.
  intros Hok. pose proof (ok_heap _ Hok) as Hh.
  destruct Hok as [Ha Ho Hsz Hb Hw Ht]. unfold Read. simpl.
  destruct (Z.leb_spec (s_len (buf st) - bw st) 0).
  - intros [= <- <- <-]. split; [done|].
    split; split; simpl; try done; lia.
  - destruct stream as [|x stream]; [done|].
    set (m := Z.to_nat _). intros [= <- <- <-].
    assert (Hk : ∀ a, 0 < a < length (heap st) →
      write_at (heap st) (Slice (s_arr (buf st)) (s_off (buf st) + bw st)
                                (s_len (buf st) - bw st))
               (take m (x :: stream)) !! a = heap st !! a).
    { intros a Hlt. apply write_at_lookup_ne. simpl. lia. }
    split; [lia|].
    split; split; simpl; rewrite ?write_at_length; try done; try lia.
    { by rewrite <- write_at_size. }
    eapply Forall_impl; [done|]. intros e. apply ev_ok_keep; [|done].
    by rewrite write_at_length.
Qed.

Lemma main_loop_ok chunks stream st :
  reader_ok st →
  let r := main_loop chunks stream st in
  reader_ok r.1.2 ∧ later st r.1.2 ∧ r.1.1 ≠ NoFuel.
Proof.
  revert stream st. induction chunks as [|k chunks IH]; intros stream st Hok;
    simpl.
  { by split; [|split; [apply later_refl|]]. }
  destruct (slide_ok st Hok) as [Hok1 Hl1].
  destruct (Read _ k stream _) as [[[n stream'] h']|] eqn:ER; simpl; [|done].
  destruct (Read_ok _ _ _ _ _ _ Hok1 ER) as (Hn & Hok2 & Hl2).
  set (st2 := Reader _ _ _ _ _) in *.
  assert (Hl : later st st2) by eauto using later_trans.
  destruct (Z.eqb_spec n 0).
  { destruct (IH stream' st2 Hok2) as (? & ? & ?). eauto using later_trans. }
  pose proof (extract_loop_ok (Z.to_nat (bw st2 - br st2)) st2 Hok2 (le_n _)) as HE.
  unfold extract_images. destruct (extract_loop _ st2) as [st3|st3|]; [| |done].
  - destruct HE as (Hok3 & Hl3 & _).
    destruct (IH stream' st3 Hok3) as (? & ? & ?). eauto 6 using later_trans.
  - destruct HE as (Hok3 & Hl3). simpl. eauto using later_trans.
Qed.

(** ** The reader: what is published *)

Lemma elem_of_spawned img tr : img ∈ spawned tr ↔ GoSendImage img ∈ tr.
Proof.
  unfold spawned. rewrite list_elem_of_omap. split.
  - intros ([s|s] & Hin & [= ->]). done.
  - intros Hin. by exists (GoSendImage img).
Qed.

Lemma elem_of_skipped img tr : img ∈ skipped tr ↔ WarnInvalid img ∈ tr.
Proof.
  unfold skipped. rewrite list_elem_of_omap. split.
  - intros ([s|s] & Hin & [= ->]). done.
  - intros Hin. by exists (WarnInvalid img).
Qed.

Lemma main_ok stream chunks :
  reader_ok (main stream chunks).1.2 ∧ (main stream chunks).1.1 ≠ NoFuel.
Proof.
  destruct (main_loop_ok chunks stream init init_ok) as (? & _ & ?). done.
Qed.

(** The extraction loop always runs to its end within its bound. *)
Lemma extract_images_total st :
  reader_ok st → extract_images st ≠ OutOfFuel.
Proof.
  intros Hok E. pose proof (extract_loop_ok _ st Hok (le_n _)) as H.
  unfold extract_images in E. by rewrite E in H.
Qed.

(** No published frame holds the end marker anywhere but at its end. *)
Lemma published_frame_one_end_marker stream chunks f :
  f ∈ frames (main stream chunks) →
  Index f endOfJPEG = (Z.of_nat (length f) - 2)%Z.
Proof.
  unfold frames. intros (img & -> & Hin%elem_of_spawned)%list_elem_of_fmap.
  destruct (main_ok stream chunks) as [[_ _ _ _ _ Ht] _].
  rewrite Forall_forall in Ht. by destruct (Ht _ Hin) as (_ & _ & ?).
Qed.

(** C5: every frame handed to [sendImage] starts with FF D8 and ends with
    FF D9; an image the reader skipped lacks one of the markers, is not
    handed on and is not among the frames, so no subscriber sees it; and a
    candidate that does not start with FF D8 is skipped with a warning while
    the cursor moves past its span. *)
Theorem only_jpegs_are_published :
  (∀ stream chunks f,
     f ∈ frames (main stream chunks) →
     HasPrefix f beginOfJPEG = true ∧ HasSuffix f endOfJPEG = true) ∧
  (∀ stream chunks r img,
     r = main stream chunks →
     img ∈ skipped (trace r.1.2) →
     valid_jpeg (bytes_of (heap r.1.2) img) = false ∧
     (img ∉ spawned (trace r.1.2)) ∧
     bytes_of (heap r.1.2) img ∉ frames r) ∧
  (∀ eoj st st',
     extract_one eoj st = Some st' →
     HasPrefix (bytes_of (heap st') (candidate eoj st)) beginOfJPEG = false →
     trace st' = trace st ++ [WarnInvalid (candidate eoj st)] ∧
     br st' = (br st + (eoj + 2))%Z).
Proof.
  split; [|split].
  - intros stream chunks f. unfold frames.
    intros (img & -> & Hin%elem_of_spawned)%list_elem_of_fmap.
    destruct (main_ok stream chunks) as [[_ _ _ _ _ Ht] _].
    rewrite Forall_forall in Ht. destruct (Ht _ Hin) as (_ & Hv & _).
    by apply andb_true_iff in Hv.
  - intros stream chunks r img -> Hin%elem_of_skipped.
    destruct (main_ok stream chunks) as [[_ _ _ _ _ Ht] _].
    rewrite Forall_forall in Ht. destruct (Ht _ Hin) as (_ & Hv). simpl in Hv.
    split; [done|]. split.
    + intros Hin'%elem_of_spawned. destruct (Ht _ Hin') as (_ & Hv' & _).
      simpl in Hv'. congruence.
    + unfold frames.
      intros (img' & Heq & Hin'%elem_of_spawned)%list_elem_of_fmap.
      destruct (Ht _ Hin') as (_ & Hv' & _). simpl in Hv'. congruence.
  - intros eoj st st' HE Hp.
    destruct (extract_one_inv _ _ _ HE) as (e & Hs & Htr & Hv & _ & Hbr & _).
    split; [|done]. rewrite Htr. unfold valid_jpeg in Hv. rewrite Hp in Hv.
    destruct e as [s|s]; [done|]. simpl in Hs. by rewrite Hs.
Qed.

Lemma only_jpegs_are_published_witness :
  (HasPrefix j4 beginOfJPEG = true ∧ HasSuffix j4 endOfJPEG = true) ∧
  Slice 2 0 2 ∉ spawned (trace (main (j4 ++ j6) [10]).1.2).
Proof.
  destruct only_jpegs_are_published as (H1 & H2 & H3). split.
  - apply (H1 (j4 ++ j4) [4; 4]). vm_compute. apply list_elem_of_here.
  - apply (H2 (j4 ++ j6) [10] _ (Slice 2 0 2) eq_refl). vm_compute.
    apply list_elem_of_here.
Defined.

(** C8: an image handed to [sendImage] is an array of its own, apart from
    the working buffer; when it is made it holds the bytes of the span
    [buf[br:br+eoj]] it was cut from; and neither the rest of the extraction
    loop nor any later turn of the main loop (reads, sliding, further
    extraction) changes its bytes. *)
Theorem published_frames_are_own_copies :
  (∀ st st' eoj,
     eoj = Index (unconsumed st) endOfJPEG →
     s_arr (buf st) < length (heap st) → (0 ≤ br st)%Z → (0 ≤ eoj)%Z →
     extract_one eoj st = Some st' →
     trace st' = trace st ++ [GoSendImage (candidate eoj st)] →
     s_arr (candidate eoj st) ≠ s_arr (buf st) ∧
     bytes_of (heap st') (candidate eoj st) =
       bytes_of (heap st) (reslice (buf st) (br st) (br st + (eoj + 2)))) ∧
  (∀ st st2 img,
     reader_ok st → img ∈ spawned (trace st) →
     extract_images st = Done st2 ∨ extract_images st = Panicked st2 →
     bytes_of (heap st2) img = bytes_of (heap st) img) ∧
  (∀ stream chunks1 chunks2 st1 rest1 img,
     main stream chunks1 = (Reading, st1, rest1) →
     img ∈ spawned (trace st1) →
     s_arr img ≠ s_arr (buf st1) ∧
     bytes_of (heap (main_loop chunks2 rest1 st1).1.2) img =
       bytes_of (heap st1) img).
Proof.
  split; [|split].
  - intros st st' eoj -> Hbuf Hbr He HE Htr.
    split; [simpl; lia|].
    destruct (extract_one_inv _ _ _ HE) as (e & Hs & Htr' & Hv & _).
    rewrite Htr in Htr'. apply app_inv_head in Htr'. injection Htr' as <-.
    apply andb_true_iff in Hv as [_ Hsuf].
    by destruct (candidate_full st st' He Hbuf Hbr HE Hsuf) as (_ & _ & ? & _).
  - intros st st2 img Hok Hin%elem_of_spawned HE.
    pose proof Hok as [_ _ _ _ _ Ht].
    rewrite Forall_forall in Ht. destruct (Ht _ Hin) as (Hr & _).
    pose proof (extract_loop_ok _ st Hok (le_n _)) as H.
    unfold extract_images in HE.
    destruct HE as [HE|HE]; rewrite HE in H.
    + destruct H as (_ & [_ _ Hk _] & _). apply bytes_of_ext, Hk, Hr.
    + destruct H as (_ & [_ _ Hk _]). apply bytes_of_ext, Hk, Hr.
  - intros stream chunks1 chunks2 st1 rest1 img Hm Hin%elem_of_spawned.
    destruct (main_ok stream chunks1) as [Hok _]. rewrite Hm in Hok.
    simpl in Hok. pose proof Hok as [Ha _ _ _ _ Ht].
    rewrite Forall_forall in Ht. destruct (Ht _ Hin) as (Hr & _).
    simpl in Hr. split; [lia|].
    destruct (main_loop_ok chunks2 rest1 st1 Hok) as (_ & [_ _ Hk _] & _).
    apply bytes_of_ext, Hk, Hr.
Qed.

Lemma published_frames_are_own_copies_witness :
  bytes_of (heap (main_loop [5; 5] (drop 5 (j4 ++ j6 ++ j4))
                    (main (j4 ++ j6 ++ j4) [5]).1.2).1.2) (Slice 1 0 4) = j4.
Proof.
  destruct published_frames_are_own_copies as (_ & _ & H3).
  destruct (H3 (j4 ++ j6 ++ j4) [5] [5; 5] (main (j4 ++ j6 ++ j4) [5]).1.2
              (drop 5 (j4 ++ j6 ++ j4)) (Slice 1 0 4)) as [_ H].
  - vm_compute. reflexivity.
  - vm_compute. apply list_elem_of_here.
  - rewrite H. vm_compute. reflexivity.
Defined.

(** Chunk boundaries inside a marker, and reads of no bytes, do no harm as
    long as no read brings the end of a second image. *)
Example markers_split_across_reads :
  frames (main (j4 ++ j6 ++ j5) [1; 2; 0; 2; 3; 1; 1; 0; 1; 3; 1; 1]) = [j4; j6; j5].
Proof. vm_compute. reflexivity. Qed.

(** C1: two JPEGs that arrive in one read.  The second image is made with
    [eoj-br] bytes instead of [eoj]: with two images of equal length it is
    empty and skipped, with a shorter second image the length is negative
    and [make] panics.  The same stream read image by image yields both. *)
Theorem two_jpegs_in_one_read :
  frames (main (j4 ++ j4) [8; 1]) = [j4] ∧
  (main (j4 ++ j4) [8; 1]).1.1 = Fatal ∧
  frames (main (j4 ++ j4) [4; 4; 1]) = [j4; j4] ∧
  frames (main (j5 ++ j4) [9; 1]) = [j5] ∧
  (main (j5 ++ j4) [9; 1]).1.1 = Panic.
Proof. vm_compute. done. Qed.

(** C10: the second candidate of a read is cut short.  With [j4] and [j6]
    in one read the span from the cursor through the first end marker is the
    six bytes of [j6]; the candidate made from it holds its first two
    bytes, and no end marker. *)
Theorem second_candidate_is_cut_short :
  let r := main (j4 ++ j6) [10] in
  frames r = [j4] ∧
  bytes_of (heap r.1.2) <$> skipped (trace r.1.2) = [[xff; xd8]] ∧
  Index [xff; xd8] endOfJPEG = (-1)%Z ∧
  r.1.1 = Reading.
Proof. vm_compute. done. Qed.

(** ** The hub: [sendImage] *)

Lemma chan_len_lookup c cs ch :
  cs !! c = Some ch → chan_len c cs = length (c_buf ch).
Proof. unfold chan_len. by intros ->. Qed.

Lemma range_send_spec jpg entries cs :
  NoDup entries.*2 →
  (∀ c, c ∈ entries.*2 →
        ∃ ch, cs !! c = Some ch ∧ c_closed ch = false ∧ maxBacklog ≤ c_cap ch) →
  ∃ cs', range_send jpg entries cs = Ok cs' ∧
         length cs' = length cs ∧
         ∀ c, cs' !! c = if decide (c ∈ entries.*2) then offer jpg <$> cs !! c
                         else cs !! c.
Proof.
  revert cs. induction entries as [|[id c] entries IH]; intros cs Hnd Hopen.
  { exists cs. split; [done|]. split; [done|]. intros c.
    destruct (decide _) as [H|]; [|done]. by apply elem_of_nil in H. }
  rewrite fmap_cons in Hnd, Hopen. simpl in Hnd, Hopen.
  apply NoDup_cons in Hnd as [Hc Hnd].
  destruct (Hopen c ltac:(left)) as (ch & Hch & Hcl & Hcap).
  assert (Hstep : ∃ cs1,
    ((if chan_len c cs <? maxBacklog then chan_send c jpg cs else Ok cs) = Ok cs1)
    ∧ length cs1 = length cs
    ∧ cs1 !! c = Some (offer jpg ch) ∧ ∀ c', c' ≠ c → cs1 !! c' = cs !! c').
  { rewrite (chan_len_lookup _ _ _ Hch). unfold offer, chan_send.
    rewrite Hch, Hcl.
    destruct (Nat.ltb_spec (length (c_buf ch)) maxBacklog) as [Hlt|Hge].
    - assert ((length (c_buf ch) <? c_cap ch) = true) as ->
        by (apply Nat.ltb_lt; lia).
      eexists. split; [done|]. split; [by rewrite length_insert|]. split.
      + rewrite list_lookup_insert_eq; [done|]. by eapply lookup_lt_Some.
      + intros c' Hne. by rewrite list_lookup_insert_ne.
    - exists cs. by rewrite Hch. }
  destruct Hstep as (cs1 & Hs & Hlen1 & Hc1 & Hother).
  destruct (IH cs1 Hnd) as (cs' & Hr & Hlen & Hspec).
  { intros c' Hin. rewrite Hother by (intros ->; done).
    apply Hopen. by right. }
  exists cs'. split; [|split; [congruence|]].
  - simpl. rewrite Hs. simpl. done.
  - intros c'. rewrite Hspec. rewrite fmap_cons. simpl.
    destruct (decide (c' = c)) as [->|Hne].
    + rewrite decide_False by done. rewrite decide_True by left.
      by rewrite Hc1, Hch.
    + rewrite Hother by done.
      destruct (decide (c' ∈ entries.*2)).
      * by rewrite decide_True by (by right).
      * rewrite decide_False; [done|]. by intros [?|?]%elem_of_cons.
Qed.

Lemma entries_of_registry w entries :
  hub_wf w → entries ≡ₚ map_to_list (requester w) →
  NoDup entries.*2 ∧
  (∀ c, c ∈ entries.*2 ↔ ∃ id, requester w !! id = Some c).
Proof.
  intros [Hopen Hinj] Hp.
  assert (Hin : ∀ id c, (id, c) ∈ entries ↔ requester w !! id = Some c).
  { intros id c. rewrite Hp. apply elem_of_map_to_list. }
  split.
  - apply NoDup_fmap_2_strong.
    + intros [id1 c1] [id2 c2] H1%Hin H2%Hin. simpl. intros <-.
      f_equal. by eapply Hinj.
    + rewrite Hp. apply NoDup_map_to_list.
  - intros c. rewrite list_elem_of_fmap. split.
    + intros ([id c'] & -> & H%Hin). by exists id.
    + intros (id & H%Hin). by exists (id, c).
Qed.

Lemma sendImage_in_spec w jpg entries :
  hub_wf w → entries ≡ₚ map_to_list (requester w) →
  ∃ w', sendImage_in entries jpg w = Ok w' ∧
        requester w' = requester w ∧
        length (chans w') = length (chans w) ∧
        (∀ id c, requester w !! id = Some c →
                 chans w' !! c = offer jpg <$> chans w !! c) ∧
        (∀ c, (∀ id, requester w !! id ≠ Some c) →
              chans w' !! c = chans w !! c) ∧
        (requester w = ∅ → w' = w) ∧
        (∃ extra, log w' = log w ++ extra ∧
                  ∀ l, l ∈ extra → ∃ n, l = LSent n).
Proof.
  intros Hwf Hp. destruct (entries_of_registry w entries Hwf Hp) as [Hnd Hin].
  unfold sendImage_in.
  destruct (Nat.eqb_spec (size (requester w)) 0) as [H0|Hn0].
  - apply map_size_empty_iff in H0.
    exists w. split; [done|]. split; [done|]. split; [done|]. split.
    { intros id c Hid. rewrite H0 in Hid. by rewrite lookup_empty in Hid. }
    split; [done|]. split; [done|]. exists []. split; [by rewrite app_nil_r|].
    by intros l ?%elem_of_nil.
  - destruct (range_send_spec jpg entries (chans w) Hnd) as (cs & Hr & Hlen & Hspec).
    { intros c (id & Hid)%Hin. by eapply wf_open. }
    rewrite Hr. simpl. eexists. split; [done|]. simpl.
    split; [done|]. split; [done|]. split; [|split; [|split]].
    + intros id c Hid. rewrite Hspec. rewrite decide_True; [done|].
      apply Hin. eauto.
    + intros c Hnone. rewrite Hspec. rewrite decide_False; [done|].
      intros (id & Hid)%Hin. by eapply Hnone.
    + intros He. rewrite He in Hn0. by rewrite map_size_empty in Hn0.
    + eexists. split; [done|]. intros l ->%list_elem_of_singleton. eauto.
Qed.

(** C2: [sendImage], whatever order the map is ranged over in, returns
    without blocking or panicking; every registered queue that holds fewer
    than [maxBacklog] frames gets the frame appended, every queue at or
    above it is left as it is, each decided by that queue's own length;
    channels that are not registered are untouched; with an empty registry
    nothing changes at all. *)
Theorem sendImage_enqueues_below_watermark w jpg entries :
  hub_wf w → entries ≡ₚ map_to_list (requester w) →
  ∃ w', sendImage_in entries jpg w = Ok w' ∧
        requester w' = requester w ∧
        (∀ id c ch, requester w !! id = Some c → chans w !! c = Some ch →
           ∃ ch', chans w' !! c = Some ch' ∧
                  c_cap ch' = c_cap ch ∧ c_closed ch' = c_closed ch ∧
                  (length (c_buf ch) < maxBacklog → c_buf ch' = c_buf ch ++ [jpg]) ∧
                  (maxBacklog ≤ length (c_buf ch) → c_buf ch' = c_buf ch)) ∧
        (∀ c, (∀ id, requester w !! id ≠ Some c) →
              chans w' !! c = chans w !! c) ∧
        (requester w = ∅ → w' = w).
Proof.
  intros Hwf Hp.
  destruct (sendImage_in_spec w jpg entries Hwf Hp)
    as (w' & Hs & Hreq & _ & Hspec & Hother & Hempty & _).
  exists w'. split; [done|]. split; [done|]. split; [|done].
  intros id c ch Hid Hch. exists (offer jpg ch).
  rewrite (Hspec _ _ Hid), Hch. split; [done|].
  unfold offer. destruct (Nat.ltb_spec (length (c_buf ch)) maxBacklog);
    simpl; repeat split; try done; lia.
Qed.

(** ** One action of the hub, seen from one subscriber *)

Lemma log_extends_refl uid w : log_extends uid w w.
Proof. exists []. by rewrite app_nil_r. Qed.

Lemma log_extends_same uid w w' : log w' = log w → log_extends uid w w'.
Proof. intros H. exists []. by rewrite app_nil_r. Qed.

Lemma log_extends_trans uid w1 w2 w3 :
  log_extends uid w1 w2 → log_extends uid w2 w3 → log_extends uid w1 w3.
Proof.
  intros (e1 & H1 & F1) (e2 & H2 & F2). exists (e1 ++ e2).
  split; [by rewrite H2, H1, app_assoc | by apply Forall_app].
Qed.

Lemma log_extends_count uid w w' l :
  log_extends uid w w' → l = LRegistered uid ∨ l = LRemoved uid →
  count_log l w' = count_log l w.
Proof.
  intros (extra & He & Hf) Hl. unfold count_log.
  rewrite He, filter_app, length_app.
  assert (filter (λ x, x = l) extra = []) as ->; [|simpl; lia].
  clear He. induction Hf as [|x extra [H1 H2] _ IH]; [done|].
  rewrite filter_cons_False; [done|]. intros ->. by destruct Hl.
Qed.

Lemma queue_lookup uid c ch w :
  requester w !! uid = Some c → chans w !! c = Some ch →
  queue uid w = c_buf ch.
Proof. unfold queue. by intros -> ->. Qed.

Lemma act_spec uid c a w :
  hub_wf w → requester w !! uid = Some c →
  a ≠ Join uid → a ≠ Leave uid →
  ∃ w', act a w = Ok w' ∧ hub_wf w' ∧ requester w' !! uid = Some c ∧
        queue uid w' = next_queue uid a (queue uid w) ∧
        log_extends uid w w'.
Proof.
  intros Hwf Hu Hj Hl. pose proof Hwf as [Hopen Hinj].
  destruct (Hopen _ _ Hu) as (ch & Hch & Hcl & Hcap).
  rewrite (queue_lookup _ _ _ _ Hu Hch).
  destruct a as [jpg|id|id|id]; simpl.
  - (* a [sendImage] goroutine *)
    destruct (sendImage_in_spec w jpg (map_to_list (requester w)) Hwf
                ltac:(done)) as (w' & Hs & Hreq & Hlen & Hspec & Hother & _ & Hlog).
    exists w'. split; [done|]. split; [|split; [by rewrite Hreq|split]].
    + split.
      * intros id' c' Hid'. rewrite Hreq in Hid'.
        destruct (Hopen _ _ Hid') as (ch' & Hch' & Hcl' & Hcap').
        exists (offer jpg ch'). rewrite (Hspec _ _ Hid'), Hch'.
        split; [done|]. unfold offer. by destruct (_ <? _).
      * rewrite Hreq. apply Hinj.
    + erewrite queue_lookup; [|by rewrite Hreq|by rewrite (Hspec _ _ Hu), Hch].
      unfold offer. by destruct (_ <? _).
    + destruct Hlog as (extra & He & Hx). exists extra. split; [done|].
      apply Forall_forall. intros l [n ->]%Hx. done.
  - (* another handler registers *)
    assert (id ≠ uid) by congruence.
    eexists. split; [done|]. simpl. split; [|split; [|split]].
    + split; simpl.
      * intros id' c'. rewrite lookup_insert. case_decide as Hid.
        -- intros [= <-]. exists (Chan [] 10 false).
           rewrite lookup_app_r, Nat.sub_diag by done.
           split; [done|]. split; [done|]. unfold maxBacklog. simpl. lia.
        -- intros (ch' & Hch' & ?)%Hopen. exists ch'.
           by rewrite lookup_app_l by (by eapply lookup_lt_Some).
      * intros id1 id2 c'. rewrite !lookup_insert.
        repeat case_decide; subst; try done.
        -- intros [= <-] (ch' & Hch'%lookup_lt_Some & _)%Hopen. lia.
        -- intros (ch' & Hch'%lookup_lt_Some & _)%Hopen [= <-]. lia.
        -- apply Hinj.
    + by rewrite lookup_insert_ne.
    + unfold queue. simpl. rewrite lookup_insert_ne by done. rewrite Hu.
      by rewrite lookup_app_l, Hch by (by eapply lookup_lt_Some).
    + exists [LRegistered id]. split; [done|].
      apply Forall_singleton. split; congruence.
  - (* another handler leaves *)
    assert (id ≠ uid) by congruence.
    destruct (requester w !! id) as [c0|] eqn:Hid.
    2:{ exists w. rewrite (queue_lookup _ _ _ _ Hu Hch).
        split; [done|]. repeat split; try done. apply log_extends_refl. }
    destruct (Hopen _ _ Hid) as (ch0 & Hch0 & Hcl0 & Hcap0).
    assert (c0 ≠ c) by (intros ->; eauto).
    unfold chan_close. simpl. rewrite Hch0, Hcl0. simpl.
    eexists. split; [done|]. simpl. split; [|split; [|split]].
    + split; simpl.
      * intros id' c'. rewrite lookup_delete. case_decide; [done|].
        intros Hid'. destruct (Hopen _ _ Hid') as (ch' & Hch' & ?).
        exists ch'. rewrite list_lookup_insert_ne; [done|].
        intros <-. eauto.
      * intros id1 id2 c'. rewrite !lookup_delete.
        repeat case_decide; try done. apply Hinj.
    + by rewrite lookup_delete_ne.
    + unfold queue. simpl. rewrite lookup_delete_ne by done. rewrite Hu.
      by rewrite list_lookup_insert_ne, Hch by done.
    + exists [LRemoved id]. split; [done|].
      apply Forall_singleton. split; congruence.
  - (* a handler receives *)
    destruct (requester w !! id) as [c0|] eqn:Hid.
    2:{ exists w. rewrite (queue_lookup _ _ _ _ Hu Hch).
        split; [done|]. repeat split; try done.
        - case_decide; [congruence|done].
        - apply log_extends_refl. }
    destruct (Hopen _ _ Hid) as (ch0 & Hch0 & Hcl0 & Hcap0).
    unfold chan_recv. rewrite Hch0.
    destruct (c_buf ch0) as [|v q] eqn:Hq.
    { rewrite Hcl0. exists w. rewrite (queue_lookup _ _ _ _ Hu Hch).
      split; [done|]. repeat split; try done; [|apply log_extends_refl].
      case_decide; [|done]. subst. rewrite Hu in Hid. injection Hid as <-.
      rewrite Hch in Hch0. injection Hch0 as <-. by rewrite Hq. }
    eexists. split; [done|]. simpl.
    split; [|split; [done|split; [|by apply log_extends_same]]].
    + split; simpl; [|apply Hinj].
      intros id' c' Hid'. destruct (Hopen _ _ Hid') as (ch' & Hch' & ? & ?).
      destruct (decide (c' = c0)) as [->|Hne].
      * eexists. rewrite list_lookup_insert_eq by (by eapply lookup_lt_Some).
        split; [done|]. simpl. rewrite Hch0 in Hch'. by injection Hch' as <-.
      * exists ch'. by rewrite list_lookup_insert_ne.
    + unfold queue. simpl. rewrite Hu. case_decide as Hd.
      * subst. rewrite Hu in Hid. injection Hid as <-.
        rewrite list_lookup_insert_eq by (by eapply lookup_lt_Some).
        rewrite Hch in Hch0. injection Hch0 as <-. by rewrite Hq.
      * assert (c0 ≠ c) by (intros ->; apply Hd; eauto).
        by rewrite list_lookup_insert_ne, Hch.
Qed.

Lemma sendImage_enqueues_below_watermark_witness :
  ∃ w', sendImage j6 two_subscribers = Ok w' ∧
        queue "a" w' = [j4; j5; j6; j4; j5] ∧ queue "b" w' = [j6].
Proof.
  destruct (sendImage_enqueues_below_watermark two_subscribers j6
              (map_to_list (requester two_subscribers)))
    as (w' & Hs & _).
  - split.
    + intros id c. simpl. rewrite !lookup_insert, lookup_empty.
      repeat case_decide; intros [= <-]; eexists; (split; [reflexivity|]);
        unfold maxBacklog; simpl; split; (done || lia).
    + intros id1 id2 c. simpl. rewrite !lookup_insert, !lookup_empty.
      repeat case_decide; subst; try done; intros [= <-]; done.
  - reflexivity.
  - exists w'. split; [exact Hs|]. vm_compute in Hs. injection Hs as <-.
    split; vm_compute; reflexivity.
Defined.

(** ** Order of delivery *)

Lemma head_tail {A} (q : list A) : option_list (head q) ++ tail q = q.
Proof. by destruct q. Qed.

(** C9, as the code has it: when the [sendImage] calls run one after the
    other, the frames a subscriber takes from its queue, followed by those
    still queued, are the frames published while it was registered, less
    the ones dropped at the watermark, in the order in which the calls ran,
    none of them twice; a subscriber whose queue stays below the watermark
    misses none. *)
Theorem subscriber_gets_frames_in_publish_order id c script w :
  hub_wf w → requester w !! id = Some c →
  Forall (λ a, a ≠ Join id ∧ a ≠ Leave id) script →
  ∃ w', run script w = Ok w' ∧
        received id script w ++ queue id w'
          `sublist_of` queue id w ++ published script ∧
        (below_watermark id script w = true →
         received id script w ++ queue id w' = queue id w ++ published script).
Proof.
  intros Hwf Hu Hs. revert w Hwf Hu.
  induction Hs as [|a script [Hj Hl] _ IH]; intros w Hwf Hu.
  { exists w. simpl. rewrite app_nil_r. done. }
  destruct (act_spec id c a w Hwf Hu Hj Hl) as (w1 & Ha & Hwf1 & Hu1 & Hq & _).
  destruct (IH w1 Hwf1 Hu1) as (w' & Hr & Hsub & Heq).
  exists w'. simpl. rewrite Ha. simpl. split; [done|].
  rewrite Hq in Hsub, Heq. split.
  - destruct a as [jpg|id'|id'|id']; simpl in *; try done.
    + destruct (length (queue id w) <? maxBacklog); simpl.
      * by rewrite <- app_assoc in Hsub.
      * etrans; [done|]. apply sublist_app; [done|]. by apply sublist_cons.
    + case_decide; [|done]. rewrite <- !app_assoc.
      rewrite <- (head_tail (queue id w)) at 2. rewrite <- !app_assoc.
      by apply sublist_app.
  - intros [Hlen Hb]%andb_true_iff. specialize (Heq Hb).
    destruct a as [jpg|id'|id'|id']; simpl in *; try done.
    + rewrite Hlen in Heq. by rewrite <- app_assoc in Heq.
    + case_decide; [|done]. rewrite <- !app_assoc.
      rewrite <- (head_tail (queue id w)) at 2. rewrite <- !app_assoc.
      by rewrite Heq.
Qed.

Lemma subscriber_gets_frames_in_publish_order_witness :
  received "a" [Join "b"; Publish j4; Take "a"; Publish j6]
           (registerImgChan "a" 0 (make_chan 10 empty_world).2) ++
  [j6] = [] ++ [j4; j6].
Proof.
  destruct (subscriber_gets_frames_in_publish_order "a" 0
              [Join "b"; Publish j4; Take "a"; Publish j6]
              (registerImgChan "a" 0 (make_chan 10 empty_world).2))
    as (w' & Hr & _ & Heq).
  - split.
    + intros id c. simpl. rewrite lookup_insert. case_decide; [|done].
      intros [= <-]. exists (Chan [] 10 false). unfold maxBacklog.
      repeat split; simpl; lia.
    + intros id1 id2 c. simpl. rewrite !lookup_insert.
      repeat case_decide; by subst.
  - done.
  - repeat constructor; done.
  - vm_compute in Hr. injection Hr as <-.
    specialize (Heq ltac:(by vm_compute)). vm_compute in Heq |- *.
    exact Heq.
Defined.

(** C9 as stated fails: each validated frame is published from a goroutine
    of its own, and when the second one runs first the subscriber finds the
    frames in the other order. *)
Lemma goroutines_reorder_frames :
  broadcast (j4 ++ j6) [5; 5] [1; 0] "a" = ([j4; j6], [j6; j4]) ∧
  [j6; j4] ≠ [j4; j6] ∧
  ¬ [j6; j4] `sublist_of` [j4; j6].
Proof.
  split; [by vm_compute|]. split; [done|].
  intros H.
  repeat match goal with
         | H : _ `sublist_of` _ |- _ => inversion H; clear H; simplify_eq
         end.
Qed.

(** A call of [sendImage] is the sequence of the turns of its loop. *)
Lemma range_send_app jpg es1 es2 cs :
  range_send jpg (es1 ++ es2) cs =
  cs' ← range_send jpg es1 cs; range_send jpg es2 cs'.
Proof.
  revert cs. induction es1 as [|[id c] es1 IH]; intros cs; [done|].
  simpl. destruct (if chan_len c cs <? maxBacklog then _ else _); simpl; auto.
Qed.

(** Calls of [sendImage] hold the read lock only and may overlap.  When the
    call for [j4] goes over the map from [a] to [b], the call for [j6] from
    [b] to [a], and each has made its first turn before the other makes its
    second, the two subscribers find the frames in opposite orders: the
    calls then have no order that both queues follow. *)
Example overlapping_calls_reach_subscribers_in_different_orders :
  let es := [("a", 0); ("b", 1)] in
  let cs0 := [Chan [] 10 false; Chan [] 10 false] in
  (cs1 ← range_send j4 [("a", 0)] cs0;
   cs2 ← range_send j6 [("b", 1)] cs1;
   cs3 ← range_send j4 [("b", 1)] cs2;
   range_send j6 [("a", 0)] cs3)
  = Ok [Chan [j4; j6] 10 false; Chan [j6; j4] 10 false] ∧
  (cs1 ← range_send j4 es cs0; range_send j6 es cs1)
  = Ok [Chan [j4; j6] 10 false; Chan [j4; j6] 10 false].
Proof. by vm_compute. Qed.

(** ** The streaming handler *)

Lemma consecutive_failures_snoc rs r :
  consecutive_failures (rs ++ [r]) =
  if part_ok r then 0%Z else (consecutive_failures rs + 1)%Z.
Proof. unfold consecutive_failures. by rewrite fold_left_app. Qed.

Lemma prefix_snoc_inv {A} (p l : list A) x :
  p `prefix_of` l ++ [x] → p `prefix_of` l ∨ p = l ++ [x].
Proof.
  intros [k Hk]. destruct k as [|y k _] using rev_ind.
  - right. by rewrite app_nil_r in Hk.
  - left. rewrite app_assoc in Hk. apply app_inj_tail in Hk as [-> _].
    by apply prefix_app_r.
Qed.

(** Closes the goals that come with a world reached by further steps. *)
Ltac after_steps w' :=
  exists w'; split_and!; try done; try (by eapply log_extends_trans).

Section handler.
  Context (uid : string) (c : nat).

Lemma recv_spec w :
  hub_wf w → requester w !! uid = Some c →
  match queue uid w with
  | [] => chan_recv c (chans w) = None
  | v :: q =>
      ∃ cs, chan_recv c (chans w) = Some (v, cs) ∧
            let w1 := World (requester w) cs (log w) in
            hub_wf w1 ∧ queue uid w1 = q
  end.
Proof.
  intros Hwf Hu. pose proof Hwf as [Hopen Hinj].
  destruct (Hopen _ _ Hu) as (ch & Hch & Hcl & Hcap).
  rewrite (queue_lookup _ _ _ _ Hu Hch). unfold chan_recv. rewrite Hch.
  destruct (c_buf ch) as [|v q] eqn:Hq; [by rewrite Hcl|].
  eexists. split; [done|]. simpl. split.
  - split; simpl; [|apply Hinj].
    intros id' c' Hid'. destruct (Hopen _ _ Hid') as (ch' & Hch' & ? & ?).
    destruct (decide (c' = c)) as [->|Hne].
    + eexists. rewrite list_lookup_insert_eq by (by eapply lookup_lt_Some).
      split; [done|]. simpl. rewrite Hch in Hch'. by injection Hch' as <-.
    + exists ch'. by rewrite list_lookup_insert_ne.
  - unfold queue. simpl. rewrite Hu.
    by rewrite list_lookup_insert_eq by (by eapply lookup_lt_Some).
Qed.

Lemma mjpeg_loop_spec script :
  Forall (avoids uid) script →
  ∀ errC res w,
    hub_wf w → requester w !! uid = Some c →
    errC = consecutive_failures (renders res).*2 →
    all_prefixes_ok (renders res).*2 →
    ∃ e res' w',
      mjpeg_loop script c uid errC res w = Ok (e, res', w') ∧
      hub_wf w' ∧ requester w' !! uid = Some c ∧ log_extends uid w w' ∧
      status res' = status res ∧ headers res' = headers res ∧
      (renders res').*1 ++ queue uid w'
        `sublist_of` (renders res).*1 ++ queue uid w ++ spub script ∧
      match e with
      | TooManyErrors =>
          consecutive_failures (renders res').*2 = 6%Z ∧
          ∀ p, p `prefix_of` (renders res').*2 → p ≠ (renders res').*2 →
               (consecutive_failures p ≤ 5)%Z
      | ClientClosed => all_prefixes_ok (renders res').*2
      | Waiting n =>
          n = consecutive_failures (renders res').*2 ∧
          all_prefixes_ok (renders res').*2
      | _ => False
      end.
Proof.
  induction 1 as [|s script Hs _ IH]; intros errC res w Hwf Hu HerrC Hpre.
  { exists (Waiting errC), res, w. simpl. rewrite app_nil_r.
    split; [done|]. split; [done|]. split; [done|].
    split; [apply log_extends_refl|]. done. }
  destruct s as [a| |r]; simpl.
  - destruct Hs as (Hj & Hl & Ht).
    destruct (act_spec uid c a w Hwf Hu Hj Hl) as (w1 & Ha & Hwf1 & Hu1 & Hq & Hlog).
    rewrite Ha. simpl.
    destruct (IH errC res w1 Hwf1 Hu1 HerrC Hpre)
      as (e & res' & w' & Hr & ? & ? & Hlog' & ? & ? & Hsub & He).
    exists e, res', w'. split_and!; try done.
    { by eapply log_extends_trans. }
    rewrite Hq in Hsub. etrans; [done|]. apply sublist_app; [done|].
    destruct a as [jpg|id|id|id]; simpl; try done.
    + destruct (_ <? _).
      * by rewrite <- app_assoc.
      * apply sublist_app; [done|]. by apply sublist_cons.
    + case_decide; [congruence|done].
  - exists ClientClosed, res, w. split_and!; try done.
    + apply log_extends_refl.
    + apply sublist_app; [done|]. by apply sublist_inserts_r.
  - pose proof (recv_spec w Hwf Hu) as Hrecv.
    destruct (queue uid w) as [|v q] eqn:Hq.
    { rewrite Hrecv. rewrite <- Hq. by apply IH. }
    destruct Hrecv as (cs & -> & Hwf1 & Hq1).
    set (w1 := World (requester w) cs (log w)) in *.
    fold (closure_result r res).
    generalize (closure_result r res). clear Hs r. intros r.
    assert (Hrs : (renders (render v r res)).*2 = (renders res).*2 ++ [r]).
    { unfold render. destruct r; simpl; by rewrite fmap_app. }
    assert (Hfs : (renders (render v r res)).*1 = (renders res).*1 ++ [v]).
    { unfold render. destruct r; simpl; by rewrite fmap_app. }
    assert (Hst : status (render v r res) = status res
                  ∧ headers (render v r res) = headers res).
    { unfold render. by destruct r. }
    destruct Hst as [Hst Hhd].
    destruct (part_ok r) eqn:Hok.
    + destruct (IH 0%Z (render v r res) w1 Hwf1 Hu)
        as (e & res' & w' & Hr & ? & ? & Hlog' & ? & ? & Hsub & He).
      { by rewrite Hrs, consecutive_failures_snoc, Hok. }
      { intros p. rewrite Hrs. intros [?| ->]%prefix_snoc_inv; [by apply Hpre|].
        by rewrite consecutive_failures_snoc, Hok. }
      exists e, res', w'. split_and!; try done; try congruence.
      rewrite Hfs, Hq1 in Hsub. by rewrite <- app_assoc in Hsub.
    + assert (Hcf : consecutive_failures ((renders res).*2 ++ [r]) = (errC + 1)%Z).
      { by rewrite consecutive_failures_snoc, Hok, HerrC. }
      assert (HerrC5 : (errC ≤ 5)%Z) by (rewrite HerrC; by apply Hpre).
      set (w2 := add_log (LUnable uid) w1).
      assert (Hwf2 : hub_wf w2) by (by destruct Hwf1).
      assert (Hlog2 : log_extends uid w w2).
      { exists [LUnable uid]. split; [done|]. by apply Forall_singleton. }
      destruct (Z.ltb_spec 5 (errC + 1)).
      * exists TooManyErrors, (render v r res), (add_log (LTooMany uid) w2).
        split; [done|].
        split; [by destruct Hwf1|]. split; [done|]. split.
        { eapply log_extends_trans; [done|].
          exists [LTooMany uid]. split; [done|]. by apply Forall_singleton. }
        split; [done|]. split; [done|]. split.
        { rewrite Hfs. change (queue uid (add_log (LTooMany uid) w2)) with (queue uid w1).
          rewrite Hq1, <- app_assoc. apply sublist_app; [done|].
          by apply (sublist_inserts_r _ (v :: q) (v :: q)). }
        rewrite Hrs. split; [lia|].
        intros p [?| ->]%prefix_snoc_inv; [intros _; by apply Hpre | done].
      * destruct (IH (errC + 1)%Z (render v r res) w2 Hwf2 Hu)
          as (e & res' & w' & Hr & ? & ? & Hlog' & ? & ? & Hsub & He).
        { by rewrite Hrs. }
        { intros p. rewrite Hrs. intros [?| ->]%prefix_snoc_inv; [by apply Hpre|].
          lia. }
        exists e, res', w'. split_and!; try done; try congruence.
        { by eapply log_extends_trans. }
        rewrite Hfs in Hsub. change (queue uid w2) with (queue uid w1) in Hsub.
        rewrite Hq1 in Hsub. by rewrite <- app_assoc in Hsub.
Qed.

(** [img := <-imgChan] in [handleSnapshot]: once a frame is queued the next
    receive takes it; until then the first publish queues one. *)
Lemma snapshot_wait_ready script :
  Forall (avoids uid) script →
  ∀ w v q,
    hub_wf w → requester w !! uid = Some c → queue uid w = v :: q →
    ∃ w', snapshot_wait script c w
            = Ok (if has_recv script then Some v else None, w') ∧
          hub_wf w' ∧ requester w' !! uid = Some c ∧ log_extends uid w w'.
Proof.
  induction 1 as [|s script Hs _ IH]; intros w v q Hwf Hu Hq.
  { exists w. split_and!; try done. apply log_extends_refl. }
  destruct s as [a| |r]; simpl.
  - destruct Hs as (Hj & Hl & Ht).
    destruct (act_spec uid c a w Hwf Hu Hj Hl) as (w1 & Ha & Hwf1 & Hu1 & Hq1 & Hlog).
    rewrite Ha. simpl. rewrite Hq in Hq1.
    assert (∃ q', queue uid w1 = v :: q') as [q' Hq'].
    { rewrite Hq1. destruct a as [jpg|id|id|id]; simpl; eauto.
      - destruct (_ <? _); eauto.
      - case_decide; [congruence|eauto]. }
    destruct (IH w1 v q' Hwf1 Hu1 Hq') as (w' & Hr & ? & ? & ?).
    after_steps w'.
  - by apply (IH w v q).
  - pose proof (recv_spec w Hwf Hu) as Hrecv. rewrite Hq in Hrecv.
    destruct Hrecv as (cs & -> & Hwf1 & _).
    eexists. split_and!; try done. by apply log_extends_same.
Qed.

Lemma snapshot_wait_empty script :
  Forall (avoids uid) script →
  ∀ w,
    hub_wf w → requester w !! uid = Some c → queue uid w = [] →
    ∃ w', snapshot_wait script c w
            = Ok (match first_publish script with
                  | Some (jpg, rest) => if has_recv rest then Some jpg else None
                  | None => None
                  end, w') ∧
          hub_wf w' ∧ requester w' !! uid = Some c ∧ log_extends uid w w'.
Proof.
  induction 1 as [|s script Hs Hrest IH]; intros w Hwf Hu Hq.
  { exists w. split_and!; try done. apply log_extends_refl. }
  destruct s as [a| |r]; simpl.
  - destruct Hs as (Hj & Hl & Ht).
    destruct (act_spec uid c a w Hwf Hu Hj Hl) as (w1 & Ha & Hwf1 & Hu1 & Hq1 & Hlog).
    rewrite Ha. simpl. rewrite Hq in Hq1.
    destruct a as [jpg|id|id|id]; simpl in Hq1.
    + destruct (snapshot_wait_ready script Hrest w1 jpg [] Hwf1 Hu1 Hq1)
        as (w' & Hr & ? & ? & ?).
      after_steps w'.
    + destruct (IH w1 Hwf1 Hu1 Hq1) as (w' & Hr & ? & ? & ?).
      after_steps w'.
    + destruct (IH w1 Hwf1 Hu1 Hq1) as (w' & Hr & ? & ? & ?).
      after_steps w'.
    + assert (queue uid w1 = []) as Hq1' by (by case_decide).
      destruct (IH w1 Hwf1 Hu1 Hq1') as (w' & Hr & ? & ? & ?).
      after_steps w'.
  - by apply IH.
  - pose proof (recv_spec w Hwf Hu) as Hrecv. rewrite Hq in Hrecv.
    rewrite Hrecv. by apply IH.
Qed.

End handler.

(** ** Registration and the deferred function *)

Lemma count_log_snoc l l' w w' :
  log w' = log w ++ [l'] →
  count_log l w' = if decide (l' = l) then S (count_log l w) else count_log l w.
Proof.
  intros H. unfold count_log. rewrite H, filter_app, length_app.
  case_decide.
  - rewrite filter_cons_True by done. simpl. lia.
  - rewrite filter_cons_False by done. simpl. lia.
Qed.

Lemma register_fresh uid w :
  hub_wf w →
  let c := length (chans w) in
  let w2 := registerImgChan uid c (make_chan 10 w).2 in
  hub_wf w2 ∧ requester w2 !! uid = Some c ∧ queue uid w2 = [] ∧
  log w2 = log w ++ [LRegistered uid].
Proof.
  intros [Hopen Hinj] c w2. split; [|split; [|split]]; [| |  |done].
  - split; simpl.
    + intros id' c'. rewrite lookup_insert. case_decide as Hid.
      * intros [= <-]. exists (Chan [] 10 false).
        unfold c. rewrite lookup_app_r, Nat.sub_diag by done.
        split; [done|]. split; [done|]. unfold maxBacklog. simpl. lia.
      * intros (ch' & Hch' & ?)%Hopen. exists ch'.
        by rewrite lookup_app_l by (by eapply lookup_lt_Some).
    + intros id1 id2 c'. rewrite !lookup_insert.
      repeat case_decide; subst; try done.
      * intros [= <-] (ch' & Hch'%lookup_lt_Some & _)%Hopen. unfold c in *. lia.
      * intros (ch' & Hch'%lookup_lt_Some & _)%Hopen [= <-]. unfold c in *. lia.
      * apply Hinj.
  - simpl. by rewrite lookup_insert_eq.
  - unfold queue. simpl. rewrite lookup_insert_eq.
    unfold c. by rewrite lookup_app_r, Nat.sub_diag by done.
Qed.

Lemma deferred_spec uid c w :
  hub_wf w → requester w !! uid = Some c →
  ∃ w', deferred uid c w = Ok w' ∧ hub_wf w' ∧
        requester w' = delete uid (requester w) ∧
        log w' = log w ++ [LRemoved uid] ∧
        ∃ ch, chans w' !! c = Some ch ∧ c_closed ch = true.
Proof.
  intros [Hopen Hinj] Hu.
  destruct (Hopen _ _ Hu) as (ch & Hch & Hcl & Hcap).
  unfold deferred, chan_close. simpl. rewrite Hch, Hcl. simpl.
  eexists. split; [done|]. simpl. split; [|split; [done|split; [done|]]].
  - split; simpl.
    + intros id' c'. rewrite lookup_delete. case_decide; [done|].
      intros Hid'. destruct (Hopen _ _ Hid') as (ch' & Hch' & ?).
      exists ch'. rewrite list_lookup_insert_ne; [done|].
      intros <-. eauto.
    + intros id1 id2 c'. rewrite !lookup_delete.
      repeat case_decide; try done. apply Hinj.
  - eexists. rewrite list_lookup_insert_eq by (by eapply lookup_lt_Some).
    done.
Qed.

Lemma cleaned_up_intro uid e w w3 (r : result world) :
  hub_wf w →
  let c := length (chans w) in
  let w2 := registerImgChan uid c (make_chan 10 w).2 in
  hub_wf w3 → requester w3 !! uid = Some c → log_extends uid w2 w3 →
  ∃ w', (if returned e then deferred uid c w3 else Ok w3) = Ok w' ∧
        cleaned_up uid e w w'.
Proof.
  intros Hwf c w2 Hwf3 Hu3 Hlog.
  destruct (register_fresh uid w Hwf) as (_ & _ & _ & Hl2). fold c w2 in Hl2.
  assert (Hreg : count_log (LRegistered uid) w3 = S (count_log (LRegistered uid) w)).
  { rewrite (log_extends_count uid w2 w3) by auto.
    rewrite (count_log_snoc _ _ _ _ Hl2). by rewrite decide_True. }
  assert (Hrem : count_log (LRemoved uid) w3 = count_log (LRemoved uid) w).
  { rewrite (log_extends_count uid w2 w3) by auto.
    rewrite (count_log_snoc _ _ _ _ Hl2). by rewrite decide_False. }
  unfold cleaned_up. destruct (returned e).
  - destruct (deferred_spec uid c w3 Hwf3 Hu3) as (w' & Hd & Hwf' & Hreq & Hl' & Hcl).
    exists w'. split; [done|]. split; [done|]. split; [|split; [|split]].
    + rewrite (count_log_snoc _ _ _ _ Hl'). by rewrite decide_False.
    + rewrite Hreq. apply lookup_delete_eq.
    + rewrite (count_log_snoc _ _ _ _ Hl'). rewrite decide_True by done.
      by rewrite Hrem.
    + done.
  - exists w3. done.
Qed.

Lemma handle_spec uid r script w :
  hub_wf w → Forall (avoids uid) script →
  ∃ e res w',
    handle uid r script w = Ok (e, res, w') ∧ cleaned_up uid e w w' ∧
    if String.eqb (method r) "GET"
    then status res = 200 ∧ headers res = mjpeg_headers ∧
         (renders res).*1 `sublist_of` spub script ∧
         match e with
         | TooManyErrors =>
             consecutive_failures (renders res).*2 = 6%Z ∧
             ∀ p, p `prefix_of` (renders res).*2 → p ≠ (renders res).*2 →
                  (consecutive_failures p ≤ 5)%Z
         | ClientClosed => all_prefixes_ok (renders res).*2
         | Waiting n =>
             n = consecutive_failures (renders res).*2 ∧
             all_prefixes_ok (renders res).*2
         | _ => False
         end
    else e = MethodNotAllowed ∧
         res = http_Error "405 Method Not Allowed" 405 new_response.
Proof.
  intros Hwf Hs. unfold handle, handleMJPEG. simpl.
  destruct (register_fresh uid w Hwf) as (Hwf2 & Hu2 & Hq2 & Hl2).
  set (c := length (chans w)) in *.
  set (w2 := registerImgChan uid c _) in *.
  destruct (String.eqb (method r) "GET") eqn:Hm; simpl.
  - set (res3 := header_add _ _ _).
    destruct (mjpeg_loop_spec uid c script Hs 0%Z res3 w2 Hwf2 Hu2)
      as (e & res' & w3 & Hr & Hwf3 & Hu3 & Hlog & Hst & Hhd & Hsub & He);
      [done| |].
    { intros p Hp. apply prefix_nil_inv in Hp as ->. done. }
    rewrite Hr. simpl.
    destruct (cleaned_up_intro uid e w w3 (Ok w3) Hwf Hwf3 Hu3 Hlog)
      as (w' & Hd & Hc).
    fold c in Hd.
    assert (Hsub' : (renders res').*1 `sublist_of` spub script).
    { rewrite Hq2 in Hsub. simpl in Hsub. etrans; [|done].
      by apply sublist_inserts_r. }
    assert (Hclose : ∀ b : bool,
              let res4 := if b then write ClosingBoundary res' else res' in
              status res4 = status res' ∧ headers res4 = headers res' ∧
              renders res4 = renders res') by (by intros []).
    destruct (returned e) eqn:Hret.
    + rewrite Hd. simpl.
      destruct (Hclose (negb (kept_error res'))) as (Hst4 & Hhd4 & Hrs4).
      eexists e, _, w'. split; [done|]. split; [done|].
      rewrite Hst4, Hhd4, Hrs4.
      split; [by rewrite Hst|]. split; [by rewrite Hhd|]. done.
    + injection Hd as <-. exists e, res', w3.
      split; [done|]. split; [done|].
      split; [by rewrite Hst|]. split; [by rewrite Hhd|]. done.
  - destruct (cleaned_up_intro uid MethodNotAllowed w w2 (Ok w2) Hwf Hwf2 Hu2
                (log_extends_refl _ _)) as (w' & Hd & Hc).
    simpl in Hd. fold c w2 in Hd. rewrite Hd. simpl.
    by exists MethodNotAllowed, (http_Error "405 Method Not Allowed" 405 new_response), w'.
Qed.

Lemma consecutive_failures_all_failed rs :
  Forall (λ r, part_ok r = false) rs →
  consecutive_failures rs = Z.of_nat (length rs).
Proof.
  induction rs as [|r rs IH] using rev_ind; [done|].
  intros [Hrs Hr]%Forall_app. rewrite Forall_singleton in Hr.
  rewrite consecutive_failures_snoc, Hr, IH, length_app by done. simpl. lia.
Qed.

(** C3: a streaming session is ended for write errors exactly when the count
    of consecutive failed part writes exceeds five, and at the first render
    at which it does: six failures in a row end it, a successful render puts
    the counter back to zero and the session goes on; every frame taken from
    the queue is rendered once, failed or not, so none is tried again. *)
Theorem six_failed_writes_end_the_session uid r script w :
  hub_wf w → Forall (avoids uid) script → method r = "GET" →
  ∃ e res w',
    handle uid r script w = Ok (e, res, w') ∧
    (e = TooManyErrors ↔ (5 < consecutive_failures (renders res).*2)%Z) ∧
    (∀ p, p `prefix_of` (renders res).*2 → p ≠ (renders res).*2 →
          (consecutive_failures p ≤ 5)%Z) ∧
    (∀ n, e = Waiting n → n = consecutive_failures (renders res).*2) ∧
    (Forall (λ r, part_ok r = false) (renders res).*2 →
     length (renders res) = 6 → e = TooManyErrors) ∧
    (∀ rs r', (renders res).*2 = rs ++ [r'] → part_ok r' = true →
              e ≠ TooManyErrors ∧ ∀ n, e = Waiting n → n = 0%Z) ∧
    (renders res).*1 `sublist_of` spub script.
Proof.
  intros Hwf Hs Hm.
  destruct (handle_spec uid r script w Hwf Hs) as (e & res & w' & Hh & _ & H).
  rewrite Hm in H. simpl in H. destruct H as (_ & _ & Hsub & He).
  exists e, res, w'. split; [done|].
  assert (Hiff : e = TooManyErrors ↔ (5 < consecutive_failures (renders res).*2)%Z).
  { destruct e; try done.
    - split; [done|]. intros ?. specialize (He _ (reflexivity _)). exfalso. lia.
    - destruct He as [He _]. rewrite He. split; [lia|done].
    - split; [done|]. intros ?. destruct He as [_ He].
      specialize (He _ (reflexivity _)). exfalso. lia. }
  assert (Hprefix : ∀ p, p `prefix_of` (renders res).*2 → p ≠ (renders res).*2 →
                        (consecutive_failures p ≤ 5)%Z).
  { destruct e; try done.
    - intros p Hp _. by apply He.
    - by destruct He.
    - intros p Hp _. by apply He. }
  assert (Hwait : ∀ n, e = Waiting n → n = consecutive_failures (renders res).*2).
  { intros n ->. by destruct He. }
  split_and!; try done.
  - intros Hall Hlen. apply Hiff.
    rewrite consecutive_failures_all_failed, length_fmap by done. lia.
  - intros rs r' Hrs Hok.
    assert (consecutive_failures (renders res).*2 = 0%Z) as H0
      by (by rewrite Hrs, consecutive_failures_snoc, Hok).
    split.
    + intros ?%Hiff. lia.
    + intros n ?%Hwait. congruence.
Qed.

Lemma empty_world_wf : hub_wf empty_world.
Proof. split; intros *; simpl; by rewrite lookup_empty. Qed.

Lemma six_failed_writes_end_the_session_witness :
  ∃ res w',
    handle "u" (Request "GET" "/mjpeg") six_failures empty_world
      = Ok (TooManyErrors, res, w') ∧
    (renders res).*1 = [j4; j5; j6; j4; j5; j6].
Proof.
  destruct (six_failed_writes_end_the_session "u" (Request "GET" "/mjpeg")
              six_failures empty_world empty_world_wf)
    as (e & res & w' & Hh & _).
  - repeat constructor; done.
  - reflexivity.
  - assert (e = TooManyErrors) as -> by (vm_compute in Hh; congruence).
    exists res, w'. split; [exact Hh|].
    vm_compute in Hh. injection Hh as <- _. vm_compute. reflexivity.
Defined.

(** ** The snapshot handler *)

Lemma handleSnapshot_spec uid r script w :
  hub_wf w → Forall (avoids uid) script →
  ∃ w', handleSnapshot uid r script w
          = Ok ((snapshot_reply script).1, (snapshot_reply script).2, w') ∧
        cleaned_up uid (snapshot_reply script).1 w w'.
Proof.
  intros Hwf Hs. unfold handleSnapshot. simpl.
  destruct (register_fresh uid w Hwf) as (Hwf2 & Hu2 & Hq2 & Hl2).
  set (c := length (chans w)) in *.
  set (w2 := registerImgChan uid c _) in *.
  destruct (snapshot_wait_empty uid c script Hs w2 Hwf2 Hu2 Hq2)
    as (w3 & Hr & Hwf3 & Hu3 & Hlog).
  rewrite Hr. simpl. unfold snapshot_reply.
  destruct (first_publish script) as [[jpg rest]|]; [destruct (has_recv rest)|].
  - destruct (cleaned_up_intro uid Served w w3 (Ok w3) Hwf Hwf3 Hu3 Hlog)
      as (w' & Hd & Hc).
    simpl in Hd. fold c in Hd. rewrite Hd. simpl. by exists w'.
  - destruct (cleaned_up_intro uid (Waiting 0) w w3 (Ok w3) Hwf Hwf3 Hu3 Hlog)
      as (w' & [= <-] & Hc). by exists w3.
  - destruct (cleaned_up_intro uid (Waiting 0) w w3 (Ok w3) Hwf Hwf3 Hu3 Hlog)
      as (w' & [= <-] & Hc). by exists w3.
Qed.

(** C7: the snapshot handler registers, waits for one frame and answers
    with exactly that frame, the first one published after it registered,
    under the headers Cache-Control: no-store, no-cache, Connection: close
    and Content-Type: image/jpeg; it then deregisters, closes its channel
    and returns.  Until a frame has been published and the handler has got
    to receive it, it stays registered and answers nothing. *)
Theorem snapshot_serves_first_published_frame uid r script w :
  hub_wf w → Forall (avoids uid) script →
  ∃ e res w',
    handleSnapshot uid r script w = Ok (e, res, w') ∧
    cleaned_up uid e w w' ∧
    match first_publish script with
    | Some (jpg, rest) =>
        if has_recv rest
        then e = Served ∧ status res = 200 ∧
             headers res = [("Cache-Control", "no-store, no-cache");
                            ("Connection", "close");
                            ("Content-Type", "image/jpeg")] ∧
             body res = [Raw jpg]
        else e = Waiting 0 ∧ body res = []
    | None => e = Waiting 0 ∧ body res = []
    end.
Proof.
  intros Hwf Hs.
  destruct (handleSnapshot_spec uid r script w Hwf Hs) as (w' & Hh & Hc).
  eexists _, _, w'. split; [done|]. split; [done|].
  unfold snapshot_reply. destruct (first_publish script) as [[jpg rest]|]; [|done].
  by destruct (has_recv rest).
Qed.

Lemma snapshot_serves_first_published_frame_witness :
  ∃ res w',
    handleSnapshot "u" (Request "GET" "/snapshot.jpg")
      [Env (Join "v"); Recv PartOk; Env (Publish j5); Env (Publish j4);
       Recv PartOk] empty_world = Ok (Served, res, w') ∧
    body res = [Raw j5].
Proof.
  destruct (snapshot_serves_first_published_frame "u"
              (Request "GET" "/snapshot.jpg")
              [Env (Join "v"); Recv PartOk; Env (Publish j5); Env (Publish j4);
               Recv PartOk] empty_world empty_world_wf)
    as (e & res & w' & Hh & _ & H).
  - repeat constructor; done.
  - simpl in H. destruct H as (-> & _ & _ & Hb). by exists res, w'.
Defined.

Lemma mjpeg_loop_waits script imgs uid :
  ∀ errC res w n res' w',
    mjpeg_loop script imgs uid errC res w = Ok (Waiting n, res', w') →
    CloseNotify ∉ script.
Proof.
  induction script as [|s script IH]; intros errC res w n res' w' H;
    [apply not_elem_of_nil|].
  apply not_elem_of_cons. destruct s as [a| |conn]; simpl in H; [| done |].
  - destruct (act a w) as [w1| |]; simpl in H; [|done|done]. eauto.
  - destruct (chan_recv imgs (chans w)) as [[img cs]|]; [|eauto].
    destruct (part_ok _); [eauto|]. destruct (5 <? errC + 1)%Z; [done|eauto].
Qed.

(** What [handle] returns for a GET request is what the loop of
    [handleMJPEG] returns, with the closing boundary where [Close] writes
    one. *)
Lemma handle_GET uid r script w e res w' :
  method r = "GET" → handle uid r script w = Ok (e, res, w') →
  ∃ res1 w1,
    mjpeg_loop script (length (chans w)) uid 0
      (Response 200 mjpeg_headers [] [])
      (registerImgChan uid (length (chans w)) (make_chan 10 w).2)
      = Ok (e, res1, w1) ∧
    res = if returned e && negb (kept_error res1)
          then write ClosingBoundary res1 else res1.
Proof.
  intros Hm H. unfold handle, handleMJPEG in H. simpl in H.
  rewrite Hm in H. simpl in H.
  destruct (mjpeg_loop _ _ _ _ _ _) as [[[e1 res1] w1]| |] eqn:HL;
    simpl in H; [|done|done].
  destruct (returned e1) eqn:Hret.
  - destruct (deferred _ _ _) as [w4| |]; simpl in H; [|done|done].
    injection H as <- <- <-. exists res1, w1. by rewrite Hret.
  - injection H as <- <- <-. exists res1, w1. by rewrite Hret.
Qed.

(** C6: a session that does not see its client go.  The snapshot handler
    waits for a frame and never looks at the close notification: with the
    client gone and no frame published it has not returned, its entry is
    still in the registry and nothing was removed for it.  The streaming
    handler, on the same request and the same events, returns and leaves no
    entry. *)
Theorem snapshot_session_outlives_its_client :
  (∃ w', serve "u" (Request "GET" "/snapshot.jpg")
           [CloseNotify; Recv PartOk; CloseNotify] empty_world
         = Ok (Waiting 0, new_response, w') ∧
         requester w' !! "u" = Some 0 ∧
         chans w' !! 0 = Some (Chan [] 10 false) ∧
         count_log (LRemoved "u") w' = 0) ∧
  (∃ res w', serve "u" (Request "GET" "/mjpeg")
               [CloseNotify; Recv PartOk; CloseNotify] empty_world
             = Ok (ClientClosed, res, w') ∧
             requester w' !! "u" = None ∧
             count_log (LRemoved "u") w' = 1).
Proof.
  split.
  - eexists. split; [by vm_compute|]. by vm_compute.
  - eexists _, _. split; [by vm_compute|]. by vm_compute.
Qed.

(** X17: the handlers leave the registry on every way out, and take it.
    The streaming handler returns, at once for a request that is not a GET
    and at the latest when the close notification is selected; the snapshot
    handler returns exactly when a frame has been published after it
    registered and it has got to receive it, whatever close notifications
    come.  A handler that has returned has removed its entry and closed its
    channel, and [removed requester] is logged for its id once more than
    before; one that has not returned is still registered. *)
Theorem sessions_end_deregistered uid r script w :
  hub_wf w → Forall (avoids uid) script →
  (∃ e res w',
     handle uid r script w = Ok (e, res, w') ∧ cleaned_up uid e w w' ∧
     (method r ≠ "GET" → e = MethodNotAllowed) ∧
     (CloseNotify ∈ script → returned e = true)) ∧
  (∃ e res w',
     handleSnapshot uid r script w = Ok (e, res, w') ∧
     cleaned_up uid e w w' ∧
     (returned e = true ↔
      ∃ jpg rest, first_publish script = Some (jpg, rest) ∧
                  has_recv rest = true)).
Proof.
  intros Hwf Hs. split.
  - destruct (handle_spec uid r script w Hwf Hs) as (e & res & w' & Hh & Hc & H).
    exists e, res, w'. split; [done|]. split; [done|].
    destruct (String.eqb_spec (method r) "GET") as [Hm|Hm].
    + split; [done|]. intros Hcn.
      destruct (handle_GET _ _ _ _ _ _ _ Hm Hh) as (res1 & w1 & HL & _).
      destruct e; try done.
      by apply mjpeg_loop_waits in HL.
    + destruct H as [-> _]. done.
  - destruct (handleSnapshot_spec uid r script w Hwf Hs) as (w' & Hh & Hc).
    eexists _, _, w'. split; [done|]. split; [done|].
    unfold snapshot_reply.
    destruct (first_publish script) as [[jpg rest]|];
      [destruct (has_recv rest) eqn:Hr|]; simpl.
    + split; [eauto|done].
    + split; [done|]. intros (? & ? & [= _ <-] & ?). congruence.
    + split; [done|]. by intros (? & ? & ? & ?).
Qed.

Lemma sessions_end_deregistered_witness :
  (∃ res w',
     handle "u" (Request "GET" "/mjpeg")
       [Env (Publish j4); Recv PartOk; CloseNotify] empty_world
       = Ok (ClientClosed, res, w') ∧
     requester w' !! "u" = None) ∧
  (∃ res w',
     handleSnapshot "u" (Request "GET" "/snapshot.jpg")
       [Env (Publish j4); Recv PartOk; CloseNotify] empty_world
       = Ok (Served, res, w') ∧
     requester w' !! "u" = None).
Proof.
  split.
  - destruct (sessions_end_deregistered "u" (Request "GET" "/mjpeg")
                [Env (Publish j4); Recv PartOk; CloseNotify] empty_world
                empty_world_wf) as [(e & res & w' & Hh & Hc & _) _].
    + repeat constructor; done.
    + unfold cleaned_up in Hc. destruct Hc as (_ & _ & Hc).
      assert (e = ClientClosed) as -> by (vm_compute in Hh; congruence).
      simpl in Hc. destruct Hc as (Hc & _). by exists res, w'.
  - destruct (sessions_end_deregistered "u" (Request "GET" "/snapshot.jpg")
                [Env (Publish j4); Recv PartOk; CloseNotify] empty_world
                empty_world_wf) as [_ (e & res & w' & Hh & Hc & _)].
    + repeat constructor; done.
    + unfold cleaned_up in Hc. destruct Hc as (_ & _ & Hc).
      assert (e = Served) as -> by (vm_compute in Hh; congruence).
      simpl in Hc. destruct Hc as (Hc & _). by exists res, w'.
Defined.

(** Every way out of a handler occurs. *)
Lemma every_exit_occurs :
  (∃ res w', handle "u" (Request "PUT" "/mjpeg") [] empty_world
             = Ok (MethodNotAllowed, res, w') ∧ requester w' = ∅) ∧
  (∃ res w', handle "u" (Request "GET" "/mjpeg") [CloseNotify] empty_world
             = Ok (ClientClosed, res, w') ∧ requester w' = ∅) ∧
  (∃ res w', handle "u" (Request "GET" "/mjpeg") six_failures empty_world
             = Ok (TooManyErrors, res, w') ∧ requester w' = ∅) ∧
  (∃ res w', handleSnapshot "u" (Request "GET" "/snapshot.jpg")
               [Env (Publish j4); Recv PartOk] empty_world
             = Ok (Served, res, w') ∧ requester w' = ∅).
Proof. split_and!; eexists _, _; split; vm_compute; reflexivity. Qed.

(** C4, as the code has it: a request to /mjpeg with any method but GET is
    answered 405 Method Not Allowed; the handler has by then registered its
    channel, and removes and closes it again on its way out, so that the
    registry ends up without an entry for it; nothing of what goes on
    meanwhile is looked at. *)
Theorem non_GET_mjpeg_is_rejected uid r script w :
  path r = "/mjpeg" → method r ≠ "GET" →
  ∃ res,
    serve uid r script w =
      Ok (MethodNotAllowed, res,
          World (delete uid (requester w))
                (chans w ++ [Chan [] 10 true])
                (log w ++ [LRegistered uid; LRemoved uid])) ∧
    status res = 405 ∧ body res = [Text "405 Method Not Allowed"].
Proof.
  intros Hp Hm%String.eqb_neq. unfold serve. rewrite Hp. simpl.
  unfold handle, handleMJPEG. simpl. rewrite Hm. simpl.
  unfold deferred, chan_close. simpl.
  rewrite lookup_app_r, Nat.sub_diag by done. simpl.
  rewrite insert_app_r_alt, Nat.sub_diag by done. simpl.
  rewrite delete_insert_eq, <- app_assoc. simpl.
  eexists. split; [reflexivity|]. done.
Qed.

Lemma non_GET_mjpeg_is_rejected_witness :
  ∃ res w',
    serve "u" (Request "DELETE" "/mjpeg") [Env (Publish j4); Recv PartOk]
          empty_world = Ok (MethodNotAllowed, res, w') ∧
    status res = 405 ∧ requester w' = ∅.
Proof.
  destruct (non_GET_mjpeg_is_rejected "u" (Request "DELETE" "/mjpeg")
              [Env (Publish j4); Recv PartOk] empty_world)
    as (res & Hs & Hst & _).
  - reflexivity.
  - discriminate.
  - eexists _, _. split; [exact Hs|]. split; [exact Hst|]. reflexivity.
Defined.

(** C4 as stated fails: when [handleMJPEG] turns a POST away, [handle] has
    already registered the channel; the registry the rejection runs in
    holds the entry, and [registered new requester] is in the log. *)
Lemma POST_is_registered_before_it_is_rejected :
  let w2 := registerImgChan "u" 0 (make_chan 10 empty_world).2 in
  requester w2 !! "u" = Some 0 ∧
  (∃ res, handleMJPEG (Request "POST" "/mjpeg") 0 "u" [] new_response w2
          = Ok (MethodNotAllowed, res, w2) ∧ status res = 405) ∧
  (∃ res w', serve "u" (Request "POST" "/mjpeg") [] empty_world
             = Ok (MethodNotAllowed, res, w') ∧
             log w' = [LRegistered "u"; LRemoved "u"]).
Proof.
  split; [by vm_compute|]. split.
  - eexists. split; by vm_compute.
  - eexists _, _. split; by vm_compute.
Qed.

(** [handleSnapshot] does not look at the method at all. *)
Lemma snapshot_ignores_the_method :
  ∃ res w',
    serve "u" (Request "POST" "/snapshot.jpg") [Env (Publish j4); Recv PartOk]
          empty_world = Ok (Served, res, w') ∧
    status res = 200 ∧ body res = [Raw j4].
Proof. eexists _, _. split_and!; by vm_compute. Qed.

(** * Further properties of the reader *)

(** ** What the working buffer holds *)

Lemma a_get_put_append a lo bs :
  a_get (a_put a lo bs) 0 (lo + length bs) = a_get a 0 lo ++ bs.
Proof.
  unfold a_get, a_put. simpl. rewrite !drop_0.
  set (pre := take lo (a_data a)).
  set (pad := replicate (lo - length pre) x00).
  assert (Hl : length (pre ++ pad) = lo).
  { unfold pad, pre. rewrite length_app, length_replicate, length_take. lia. }
  rewrite (app_assoc pre pad), (app_assoc (pre ++ pad) bs).
  rewrite take_app_length' by (rewrite length_app; lia).
  rewrite length_app, Hl, Nat.sub_diag. simpl. apply app_nil_r.
Qed.

Lemma a_get_drop a lo n : a_get a lo n = drop lo (a_get a 0 (lo + n)).
Proof.
  rewrite (a_get_padded a lo n (lo + n)), (a_get_padded a 0 (lo + n) (lo + n)) by lia.
  rewrite drop_0. apply take_drop_commute.
Qed.

Section buffer.
  Context (st : reader) (Hok : reader_ok st).

Lemma buf_lookup : ∃ a, heap st !! s_arr (buf st) = Some a.
Proof.
  destruct Hok as [Ha _ Hs _ _ _]. rewrite Ha.
  destruct (heap st !! 0); [eauto|done].
Qed.

Lemma filled_length : length (filled st) = Z.to_nat (bw st).
Proof.
  unfold filled. rewrite bytes_of_length; simpl.
  - f_equal. lia.
  - destruct Hok as [Ha _ _ _ _ _]. rewrite Ha. by apply ok_heap.
Qed.

Lemma unconsumed_filled :
  unconsumed st = drop (Z.to_nat (br st)) (filled st).
Proof.
  pose proof Hok as [Ha Ho _ Hb _ _]. destruct buf_lookup as [a Hl].
  unfold unconsumed, filled, bytes_of. simpl. rewrite Hl, Ho. simpl.
  rewrite a_get_drop. do 2 f_equal. lia.
Qed.

Lemma slide_filled : filled (slide st) = unconsumed st.
Proof.
  pose proof Hok as [Ha Ho _ Hb Hw _]. unfold slide.
  destruct (Z.ltb_spec 0 (br st)) as [Hlt|Hge].
  - unfold filled. simpl. unfold copy.
    fold (unconsumed st).
    assert (Hlen : length (unconsumed st) = Z.to_nat (bw st - br st))
      by (by apply unconsumed_length).
    rewrite take_ge by (rewrite Hlen; simpl; lia).
    destruct buf_lookup as [a Hl].
    unfold write_at, bytes_of. rewrite Hl. simpl.
    rewrite list_lookup_insert_eq by (by eapply lookup_lt_Some).
    rewrite Ho. simpl. replace (bw st - br st - 0)%Z with (bw st - br st)%Z by lia.
    rewrite <- Hlen. apply a_get_put_0.
  - rewrite unconsumed_filled. replace (br st) with 0%Z by lia. done.
Qed.

Lemma slide_unconsumed : unconsumed (slide st) = unconsumed st.
Proof.
  destruct (slide_ok st Hok) as [Hok' _].
  rewrite <- slide_filled. unfold slide.
  destruct (Z.ltb_spec 0 (br st)) as [Hlt|Hge].
  - unfold unconsumed, filled. simpl. done.
  - pose proof Hok as [_ _ _ Hb _ _].
    replace (br st) with 0%Z by lia. unfold unconsumed, filled.
    by replace (br st) with 0%Z by lia.
Qed.

Lemma Read_filled k stream n stream' h' :
  Read (reslice (buf st) (bw st) (s_len (buf st))) k stream (heap st)
    = Some (n, stream', h') →
  let st2 := Reader h' (buf st) (br st) (bw st + n) (trace st) in
  (0 ≤ n)%Z ∧
  filled st2 = filled st ++ take (Z.to_nat n) stream ∧
  stream' = drop (Z.to_nat n) stream ∧
  Z.to_nat n = (k `min` Z.to_nat (s_len (buf st) - bw st)) `min` length stream ∧
  (bw st = s_len (buf st) → n = 0%Z ∧ st2 = st).
Proof.
  pose proof Hok as [Ha Ho _ Hb Hw _]. unfold Read. simpl.
  destruct (Z.leb_spec (s_len (buf st) - bw st) 0).
  - intros [= <- <- <-]. simpl. rewrite take_0, app_nil_r, drop_0.
    split; [done|]. split.
    { unfold filled. simpl. by rewrite Z.add_0_r. }
    split; [done|]. split; [lia|].
    intros _. split; [done|]. destruct st. simpl. by rewrite Z.add_0_r.
  - destruct stream as [|x stream]; [done|].
    set (m := Z.to_nat _). intros [= <- <- <-].
    split; [lia|]. rewrite Nat2Z.id. split; [|split; [done|split]].
    + destruct buf_lookup as [a Hl].
      unfold filled, write_at, bytes_of. simpl. rewrite Hl.
      rewrite list_lookup_insert_eq by (by eapply lookup_lt_Some).
      rewrite Ho. simpl.
      assert (Hm : length (take m (x :: stream)) = m).
      { rewrite length_take. clear Hl. subst m. simpl length. lia. }
      replace (Z.to_nat (bw st + Z.of_nat m - 0))
        with (Z.to_nat (bw st) + length (take m (x :: stream))) by lia.
      rewrite a_get_put_append. do 2 f_equal. lia.
    + unfold m. simpl length. lia.
    + lia.
Qed.

End buffer.

(** ** What a step does to the frames and to the unconsumed bytes *)

Lemma frames_of_later st st' :
  reader_ok st → later st st' →
  ∃ evs, trace st' = trace st ++ evs ∧
         frames_of st' = frames_of st ++ (bytes_of (heap st') <$> spawned evs).
Proof.
  intros Hok [_ _ Hk [evs Hevs]]. exists evs. split; [done|].
  unfold frames_of, spawned. rewrite Hevs, omap_app, fmap_app. f_equal.
  apply Forall_fmap_ext_1, Forall_forall. intros img Hin%elem_of_spawned.
  destruct Hok as [_ _ _ _ _ Ht]. rewrite Forall_forall in Ht.
  destruct (Ht _ Hin) as [Hr _]. apply bytes_of_ext, Hk, Hr.
Qed.

Lemma frames_of_same st st' :
  reader_ok st → later st st' → trace st' = trace st →
  frames_of st' = frames_of st.
Proof.
  intros Hok Hl Ht. destruct (frames_of_later st st' Hok Hl) as (evs & He & ->).
  rewrite Ht in He. rewrite <- (app_nil_r (trace st)) in He at 1.
  apply app_inv_head in He as <-. simpl. apply app_nil_r.
Qed.

Lemma slide_frames st : reader_ok st → frames_of (slide st) = frames_of st.
Proof.
  intros Hok. destruct (slide_ok st Hok) as [_ Hl].
  apply frames_of_same; [done|done|]. unfold slide. by destruct (_ <? _)%Z.
Qed.

Lemma slide_br st : reader_ok st → br (slide st) = 0%Z.
Proof.
  intros [_ _ _ Hb _ _]. unfold slide.
  destruct (Z.ltb_spec 0 (br st)); simpl; lia.
Qed.

(** One turn of the extraction loop: the span up to the first end marker
    leaves the unconsumed bytes; it is published whole, and then the cursor
    was at the start of the buffer, or it is not published at all. *)
Lemma extract_one_frames st st' :
  let eoj := Index (unconsumed st) endOfJPEG in
  reader_ok st → (0 ≤ eoj)%Z → extract_one eoj st = Some st' →
  reader_ok st' ∧ later st st' ∧ filled st' = filled st ∧
  unconsumed st' = drop (Z.to_nat eoj + 2) (unconsumed st) ∧
  (0 < br st')%Z ∧
  (frames_of st' = frames_of st ∨
   br st = 0%Z ∧
   frames_of st' = frames_of st ++ [take (Z.to_nat eoj + 2) (unconsumed st)]).
Proof.
  intros eoj Hok He HE.
  destruct (extract_one_ok st st' Hok He HE) as (Hok' & Hl & Hbr & Hbw & Hle).
  fold eoj in Hbr, Hle.
  pose proof (extract_one_inv _ _ _ HE)
    as (e & Hs & Htr & Hv & Hbuf & _ & _ & Hlen & Hkeep).
  assert (Hf : filled st' = filled st).
  { unfold filled. rewrite Hbuf, Hbw. apply bytes_of_ext. simpl.
    apply Hkeep. rewrite (ok_arr _ Hok). by apply ok_heap. }
  pose proof Hok as [_ _ _ Hb _ _].
  split; [done|]. split; [done|]. split; [done|]. split; [|split; [lia|]].
  - rewrite (unconsumed_filled st' Hok'), (unconsumed_filled st Hok), Hf, Hbr.
    rewrite drop_drop. f_equal. lia.
  - destruct (frames_of_later st st' Hok Hl) as (evs & Hevs & ->).
    rewrite Htr in Hevs. apply app_inv_head in Hevs as <-.
    destruct e as [img|img]; simpl in *; [|left; apply app_nil_r].
    right. subst img. apply andb_true_iff in Hv as [_ Hsuf].
    destruct (candidate_full st st' He) as (H0 & _ & _ & Hc); try done.
    + rewrite (ok_arr _ Hok). by apply ok_heap.
    + lia.
    + fold eoj in Hc. by rewrite Hc.
Qed.

(** ** A scheme for invariants of the reader *)

Section reader_invariant.
(** [P c st]: the reader is in state [st] after having read the bytes
    [c]. *)
  Context (P : list byte → reader → Prop).
  Hypothesis P_slide : ∀ c st, reader_ok st → P c st → P c (slide st).
  Hypothesis P_read : ∀ c st k stream n stream' h',
      reader_ok st → br st = 0%Z → P c st →
      Read (reslice (buf st) (bw st) (s_len (buf st))) k stream (heap st)
        = Some (n, stream', h') →
      P (c ++ take (Z.to_nat n) stream)
        (Reader h' (buf st) (br st) (bw st + n) (trace st)).
  Hypothesis P_extract : ∀ c st st',
      reader_ok st → P c st →
      (0 ≤ Index (unconsumed st) endOfJPEG)%Z →
      extract_one (Index (unconsumed st) endOfJPEG) st = Some st' →
      P c st'.

Lemma extract_loop_inv fuel c st :
  reader_ok st → P c st →
  match extract_loop fuel st with
  | Done st' | Panicked st' => P c st'
  | OutOfFuel => True
  end.
Proof.
  revert st. induction fuel as [|fuel IH]; intros st Hok HP; simpl;
    fold (unconsumed st);
    destruct (Z.ltb_spec (Index (unconsumed st) endOfJPEG) 0) as [Hlt|Hge];
    try done.
  destruct (extract_one _ st) as [st'|] eqn:E; [|done].
  apply IH.
  - by destruct (extract_one_ok st st' Hok Hge E).
  - by eapply P_extract.
Qed.

Lemma main_loop_inv chunks stream c st :
  reader_ok st → P c st →
  ∃ c', c ++ stream = c' ++ (main_loop chunks stream st).2 ∧
        P c' (main_loop chunks stream st).1.2.
Proof.
  revert stream c st.
  induction chunks as [|k chunks IH]; intros stream c st Hok HP; simpl.
  { by exists c. }
  destruct (slide_ok st Hok) as [Hok1 _].
  pose proof (P_slide c st Hok HP) as HP1.
  destruct (Read _ k stream _) as [[[n stream'] h']|] eqn:ER; simpl;
    [|by exists c].
  destruct (Read_ok _ _ _ _ _ _ Hok1 ER) as (Hn & Hok2 & _).
  destruct (Read_filled _ Hok1 _ _ _ _ _ ER) as (_ & _ & Hs' & _).
  pose proof (P_read _ _ _ _ _ _ _ Hok1 (slide_br st Hok) HP1 ER) as HP2.
  set (st2 := Reader _ _ _ _ _) in *.
  assert (Heq : c ++ stream = (c ++ take (Z.to_nat n) stream) ++ stream').
  { by rewrite Hs', <- app_assoc, take_drop. }
  destruct (Z.eqb_spec n 0).
  { destruct (IH stream' _ st2 Hok2 HP2) as (c' & Hc' & ?).
    exists c'. by rewrite Heq. }
  pose proof (extract_loop_ok (Z.to_nat (bw st2 - br st2)) st2 Hok2 (le_n _)) as HE.
  pose proof (extract_loop_inv (Z.to_nat (bw st2 - br st2)) _ st2 Hok2 HP2) as HI.
  unfold extract_images. destruct (extract_loop _ st2) as [st3|st3|]; [| |done].
  - destruct HE as (Hok3 & _).
    destruct (IH stream' _ st3 Hok3 HI) as (c' & Hc' & ?).
    exists c'. by rewrite Heq.
  - by eexists.
Qed.

End reader_invariant.

Lemma cut_from_app_r fs s g : cut_from fs s → cut_from fs (s ++ g).
Proof.
  revert s. induction fs as [|f fs IH]; intros s; simpl; [done|].
  intros (gap & rest & -> & H). exists gap, (rest ++ g).
  split; [by rewrite <- !app_assoc | by apply IH].
Qed.

Lemma cut_from_snoc fs s f : cut_from fs s → cut_from (fs ++ [f]) (s ++ f).
Proof.
  revert s. induction fs as [|f' fs IH]; intros s; simpl.
  - intros _. exists s, []. by rewrite app_nil_r.
  - intros (gap & rest & -> & H). exists gap, (rest ++ f).
    split; [by rewrite <- !app_assoc | by apply IH].
Qed.

Lemma HasPrefix_app s t p : HasPrefix s p = true → HasPrefix (s ++ t) p = true.
Proof.
  intros H. pose proof (HasPrefix_length _ _ H).
  apply HasPrefix_spec in H. apply HasPrefix_spec.
  by rewrite take_app_le.
Qed.

Lemma Index_infix l1 u l2 sep :
  (0 ≤ Index u sep)%Z → (0 ≤ Index (l1 ++ u ++ l2) sep)%Z.
Proof.
  intros Hi. pose proof (Index_bound _ _ Hi) as Hb.
  pose proof (Index_found _ _ Hi) as Hf.
  apply (HasPrefix_app _ l2) in Hf.
  eapply (Index_first _ _ (length l1 + Z.to_nat (Index u sep))).
  - rewrite drop_app_add. by rewrite drop_app_le by lia.
  - rewrite !length_app. lia.
Qed.

Lemma unconsumed_init : unconsumed init = [].
Proof. reflexivity. Qed.

Lemma pieces_inv_main stream chunks :
  ∃ c', stream = c' ++ (main stream chunks).2 ∧
        pieces_inv c' (main stream chunks).1.2.
Proof.
  apply (main_loop_inv pieces_inv) with (c := []).
  - intros c st Hok (b & -> & Hc). exists b.
    by rewrite slide_unconsumed, slide_frames.
  - intros c st k s n s' h' Hok Hbr (b & -> & Hc) ER.
    destruct (Read_ok _ _ _ _ _ _ Hok ER) as (Hn & Hok2 & Hl).
    destruct (Read_filled _ Hok _ _ _ _ _ ER) as (_ & Hf & _).
    set (st2 := Reader _ _ _ _ _) in *. exists b. split.
    + rewrite (unconsumed_filled st2 Hok2), (unconsumed_filled st Hok).
      change (br st2) with (br st). rewrite Hbr, !drop_0, Hf.
      by rewrite app_assoc.
    + by rewrite (frames_of_same st st2 Hok Hl).
  - intros c st st' Hok (b & -> & Hc) Hi HE.
    destruct (extract_one_frames st st' Hok Hi HE)
      as (_ & _ & _ & Hu & _ & Hfr).
    set (m := Z.to_nat _ + 2) in *.
    exists (b ++ take m (unconsumed st)). split.
    + by rewrite Hu, <- app_assoc, take_drop.
    + destruct Hfr as [->|[_ ->]].
      * by apply cut_from_app_r.
      * by apply cut_from_snoc.
  - apply init_ok.
  - exists []. by rewrite unconsumed_init.
Qed.

(** X1: whatever the reader publishes it has cut from its input: the frames
    are pieces of the stream that do not overlap and lie in it in the order
    in which they were published. *)
Theorem frames_are_pieces_of_the_stream stream chunks :
  cut_from (frames (main stream chunks)) stream.
Proof.
  destruct (pieces_inv_main stream chunks) as (c' & Hs & b & -> & Hc).
  unfold frames. fold (frames_of (main stream chunks).1.2).
  remember (main stream chunks) as r. rewrite Hs, <- app_assoc.
  by apply cut_from_app_r.
Qed.

(** The extraction loop panics only at a span that is shorter than the
    cursor is far into the buffer. *)
Lemma extract_one_None eoj st :
  extract_one eoj st = None ↔ (eoj + 2 < br st)%Z.
Proof.
  unfold extract_one, make. change (Z.of_nat (length endOfJPEG)) with 2%Z.
  destruct (Z.ltb_spec (eoj + 2 - br st) 0).
  - split; [lia|done].
  - split; [|lia]. by destruct (_ || _).
Qed.

Lemma extract_loop_panic fuel st st' :
  extract_loop fuel st = Panicked st' →
  (0 ≤ Index (unconsumed st') endOfJPEG)%Z ∧
  (Index (unconsumed st') endOfJPEG + 2 < br st')%Z.
Proof.
  revert st. induction fuel as [|fuel IH]; intros st; simpl;
    fold (unconsumed st);
    destruct (Z.ltb_spec (Index (unconsumed st) endOfJPEG) 0) as [Hlt|Hge];
    try done.
  destruct (extract_one _ st) as [st1|] eqn:E; [by apply IH|].
  intros [= <-]. by apply extract_one_None in E.
Qed.

Lemma main_loop_panic chunks stream st :
  (main_loop chunks stream st).1.1 = Panic →
  let st' := (main_loop chunks stream st).1.2 in
  (0 ≤ Index (unconsumed st') endOfJPEG)%Z ∧
  (Index (unconsumed st') endOfJPEG + 2 < br st')%Z.
Proof.
  revert stream st. induction chunks as [|k chunks IH]; intros stream st;
    simpl; [done|].
  destruct (Read _ k stream _) as [[[n stream'] h']|]; simpl; [|done].
  destruct (n =? 0)%Z; [apply IH|].
  destruct (extract_images _) as [st3|st3|] eqn:E; simpl; [apply IH| |done].
  intros _. by eapply extract_loop_panic.
Qed.

(** X2: the reader panics only inside a read from which it has already taken
    a candidate: the cursor is then past the start of the buffer, and the
    span up to the next end marker is shorter than the cursor is far into
    the buffer, so that [make] is asked for a negative length. *)
Theorem panic_needs_a_second_image stream chunks :
  (main stream chunks).1.1 = Panic →
  let st := (main stream chunks).1.2 in
  (0 < br st)%Z ∧
  (0 ≤ Index (unconsumed st) endOfJPEG)%Z ∧
  (Index (unconsumed st) endOfJPEG + 2 - br st < 0)%Z.
Proof.
  intros H. destruct (main_loop_panic _ _ _ H) as [H1 H2].
  unfold main in *. simpl. lia.
Qed.

Lemma panic_needs_a_second_image_witness :
  (0 < br (main (j5 ++ j4) [9%nat]).1.2)%Z.
Proof.
  destruct (panic_needs_a_second_image (j5 ++ j4) [9]) as (H & _).
  - vm_compute. reflexivity.
  - exact H.
Defined.

(** X3: a stream without an end marker yields no frame and no panic, however
    it is read: an image that is cut off is never published. *)
Theorem no_end_marker_no_frame stream chunks :
  (Index stream endOfJPEG < 0)%Z →
  frames (main stream chunks) = [] ∧ (main stream chunks).1.1 ≠ Panic.
Proof.
  intros Hno.
  destruct (pieces_inv_main stream chunks) as (c' & Hs & b & Hc & Hcut).
  pose proof (proj1 (main_ok stream chunks)) as [_ _ _ _ _ Ht].
  pose proof (main_loop_panic chunks stream init) as Hpanic.
  fold (main stream chunks) in Hpanic.
  unfold frames. fold (frames_of (main stream chunks).1.2).
  remember (main stream chunks) as r. clear Heqr.
  rewrite Hs, Hc in Hno. split.
  - destruct (frames_of r.1.2) as [|f fs] eqn:Hf; [done|]. exfalso.
    assert (Hin : f ∈ frames_of r.1.2) by (rewrite Hf; left).
    unfold frames_of in Hin.
    apply list_elem_of_fmap in Hin as (img & -> & Him%elem_of_spawned).
    rewrite Forall_forall in Ht. destruct (Ht _ Him) as (_ & Hv & Hi).
    simpl in Hv, Hi. apply andb_true_iff in Hv as [_ Hsuf].
    unfold HasSuffix in Hsuf. apply andb_true_iff in Hsuf as [Hl%Nat.leb_le _].
    change (length endOfJPEG) with 2 in Hl.
    destruct Hcut as (gap & rest & -> & _).
    pose proof (Index_infix gap (bytes_of (heap r.1.2) img)
                  (rest ++ unconsumed r.1.2 ++ r.2) endOfJPEG ltac:(lia)) as H.
    rewrite <- !app_assoc in Hno. lia.
  - intros Hp. destruct (Hpanic Hp) as [H0 _].
    pose proof (Index_infix b _ r.2 endOfJPEG H0) as H.
    rewrite <- !app_assoc in Hno. lia.
Qed.

Lemma no_end_marker_no_frame_witness :
  frames (main (take 5 j6) [2; 2; 1; 1]) = [].
Proof.
  destruct (no_end_marker_no_frame (take 5 j6) [2; 2; 1; 1]) as [H _].
  - vm_compute. reflexivity.
  - exact H.
Defined.

(** ** How many frames a read can yield *)

Lemma extract_loop_count fuel st :
  reader_ok st →
  match extract_loop fuel st with
  | Done st' | Panicked st' =>
      length (frames_of st') ≤
      length (frames_of st) + (if decide (br st = 0%Z) then 1 else 0)
  | OutOfFuel => True
  end.
Proof.
  revert st. induction fuel as [|fuel IH]; intros st Hok; simpl;
    fold (unconsumed st);
    destruct (Z.ltb_spec (Index (unconsumed st) endOfJPEG) 0) as [Hlt|Hge];
    try done; try lia.
  destruct (extract_one _ st) as [st1|] eqn:E; [|lia].
  destruct (extract_one_frames st st1 Hok Hge E) as (Hok1 & _ & _ & _ & Hbr & Hfr).
  specialize (IH st1 Hok1).
  destruct (extract_loop fuel st1) as [st'|st'|]; [| |done];
    rewrite decide_False in IH by lia;
    (destruct Hfr as [Hfr|[H0 Hfr]];
     [|rewrite decide_True by done]; rewrite Hfr in IH;
     rewrite ?length_app in IH; simpl in IH; lia).
Qed.

Lemma main_loop_count chunks stream st :
  reader_ok st →
  length (frames_of (main_loop chunks stream st).1.2)
  ≤ length (frames_of st) + length chunks.
Proof.
  revert stream st. induction chunks as [|k chunks IH]; intros stream st Hok;
    simpl; [lia|].
  destruct (slide_ok st Hok) as [Hok1 _].
  pose proof (slide_frames st Hok) as Hf1.
  destruct (Read _ k stream _) as [[[n stream'] h']|] eqn:ER; simpl;
    [|rewrite Hf1; lia].
  destruct (Read_ok _ _ _ _ _ _ Hok1 ER) as (Hn & Hok2 & Hl2).
  set (st2 := Reader _ _ _ _ _) in *.
  assert (Hf2 : frames_of st2 = frames_of st)
    by (by rewrite (frames_of_same _ st2 Hok1 Hl2)).
  destruct (Z.eqb_spec n 0).
  { specialize (IH stream' st2 Hok2). rewrite Hf2 in IH. lia. }
  pose proof (extract_loop_ok (Z.to_nat (bw st2 - br st2)) st2 Hok2 (le_n _)) as HE.
  pose proof (extract_loop_count (Z.to_nat (bw st2 - br st2)) st2 Hok2) as HC.
  rewrite Hf2 in HC. unfold extract_images. destruct (extract_loop _ st2) as [st3|st3|]; [| |done].
  - destruct HE as (Hok3 & _). specialize (IH stream' st3 Hok3).
    destruct (decide _); lia.
  - simpl. destruct (decide _); lia.
Qed.

(** X4: one read never yields more than one frame: the reader publishes at
    most as many frames as it has made reads, however many images the reads
    brought. *)
Theorem at_most_one_frame_per_read stream chunks :
  length (frames (main stream chunks)) ≤ length chunks.
Proof. apply (main_loop_count chunks stream init init_ok). Qed.

(** ** The bounds the reader keeps *)

(** X5: at every point the reader can be looked at, [0 <= br <= bw <=
    len(buf)], [buf] is still the whole of the array of 10 MiB made at the
    start, and the extraction loop has come to its end within its bound; the
    slice expressions of the loop are therefore always in range. *)
Theorem reader_keeps_its_bounds stream chunks :
  let r := main stream chunks in
  buf r.1.2 = Slice 0 0 bufsize ∧
  (0 ≤ br r.1.2 ≤ bw r.1.2)%Z ∧ (bw r.1.2 ≤ bufsize)%Z ∧
  a_size <$> heap r.1.2 !! 0 = Some bufsize ∧
  r.1.1 ≠ NoFuel.
Proof.
  destruct (main_loop_ok chunks stream init init_ok)
    as ([_ _ Hs Hb Hw _] & [Hbuf _ _ _] & Hn).
  fold (main stream chunks) in *. simpl. rewrite Hbuf in Hs, Hw. done.
Qed.

(** ** A full buffer *)

(** X6: once the buffer is full with the cursor at its start, as it is after
    10 MiB without an end marker, the reader is stuck: every further [Read]
    is given an empty slice and returns no bytes and no error, so that the
    state never changes, no frame is published and not even the end of the
    stream is noticed. *)
Theorem full_buffer_stalls st chunks stream :
  br st = 0%Z → bw st = s_len (buf st) →
  main_loop chunks stream st = (Reading, st, stream).
Proof.
  intros Hbr Hbw. induction chunks as [|k chunks IH]; simpl; [done|].
  assert (slide st = st) as -> by (unfold slide; by rewrite Hbr).
  unfold Read. simpl.
  assert ((s_len (buf st) - bw st <=? 0)%Z = true) as -> by lia.
  simpl. destruct st as [h b r w t]. simpl in *. by rewrite Z.add_0_r.
Qed.

Lemma full_buffer_stalls_witness :
  main_loop [4; 4; 1] (j4 ++ j4)
    (Reader [Array [] bufsize] (Slice 0 0 bufsize) 0 bufsize [])
  = (Reading, Reader [Array [] bufsize] (Slice 0 0 bufsize) 0 bufsize [],
     j4 ++ j4).
Proof. apply full_buffer_stalls; reflexivity. Defined.

(** ** Reading on *)

Lemma main_loop_app c1 c2 stream st :
  main_loop (c1 ++ c2) stream st =
  match main_loop c1 stream st with
  | (Reading, st1, rest) => main_loop c2 rest st1
  | r => r
  end.
Proof.
  revert stream st. induction c1 as [|k c1 IH]; intros stream st; simpl; [done|].
  destruct (Read _ k stream _) as [[[n stream'] h']|]; simpl; [|done].
  destruct (n =? 0)%Z; [apply IH|].
  destruct (extract_images _) as [st3|st3|]; [apply IH|done|done].
Qed.

(** X7: reading on only adds frames: the frames published after the reads
    [c1] are, unchanged, the first of the frames published after the reads
    [c1 ++ c2]. *)
Theorem frames_only_grow stream c1 c2 :
  frames (main stream c1) `prefix_of` frames (main stream (c1 ++ c2)).
Proof.
  unfold main. rewrite main_loop_app.
  destruct (main_loop_ok c1 stream init init_ok) as (Hok & _ & _).
  destruct (main_loop c1 stream init) as [[s st1] rest] eqn:E. simpl in Hok.
  destruct s; try done.
  destruct (main_loop_ok c2 rest st1 Hok) as (_ & Hl & _).
  destruct (frames_of_later st1 _ Hok Hl) as (evs & _ & Hf).
  unfold frames. simpl. fold (frames_of st1).
  fold (frames_of (main_loop c2 rest st1).1.2). rewrite Hf.
  by apply prefix_app_r.
Qed.

(** ** The end of the stream *)

(** X9: a read at the end of the stream ends the reader: when the reads so
    far have used up the stream and the buffer is not full, the next read
    fails, the reader stops with the fatal error whatever would follow, and
    the bytes of an unfinished image that are still in the buffer are never
    published. *)
Theorem read_at_the_end_of_the_stream_is_fatal stream chunks k more :
  (main stream chunks).1.1 = Reading → (main stream chunks).2 = [] →
  (bw (main stream chunks).1.2 - br (main stream chunks).1.2 < bufsize)%Z →
  (main stream (chunks ++ k :: more)).1.1 = Fatal ∧
  frames (main stream (chunks ++ k :: more)) = frames (main stream chunks).
Proof.
  unfold main, frames. intros Hs Hr Hb. rewrite main_loop_app.
  destruct (main_loop_ok chunks stream init init_ok) as (Hok & Hl & _).
  destruct (main_loop chunks stream init) as [[s st'] rest] eqn:E.
  simpl in *. subst s rest.
  destruct (slide_ok st' Hok) as [Hok1 Hl1].
  pose proof (slide_frames st' Hok) as Hf. unfold frames_of in Hf.
  assert (Read (reslice (buf (slide st')) (bw (slide st'))
                        (s_len (buf (slide st')))) k [] (heap (slide st'))
          = None) as ->; [|done].
  unfold Read. simpl.
  assert ((s_len (buf (slide st')) - bw (slide st') <=? 0)%Z = false) as ->;
    [|done].
  apply Z.leb_gt. rewrite (lt_buf _ _ Hl1), (lt_buf _ _ Hl). simpl.
  pose proof (ok_br _ Hok). unfold slide.
  destruct (Z.ltb_spec 0 (br st')); simpl; lia.
Qed.

Lemma read_at_the_end_of_the_stream_is_fatal_witness :
  (main (j4 ++ take 3 j5) [4; 2; 1; 7; 7]).1.1 = Fatal ∧
  frames (main (j4 ++ take 3 j5) [4; 2; 1; 7; 7]) =
  frames (main (j4 ++ take 3 j5) [4; 2; 1]).
Proof.
  apply (read_at_the_end_of_the_stream_is_fatal (j4 ++ take 3 j5) [4; 2; 1] 7 [7]);
    vm_compute; done.
Defined.

(** ** Images that come one at a time *)

Lemma Index_proper_prefix j sep m :
  Index j sep = (Z.of_nat (length j) - Z.of_nat (length sep))%Z →
  m < length j → (Index (take m j) sep < 0)%Z.
Proof.
  intros Hj Hm. destruct (Z.ltb_spec (Index (take m j) sep) 0) as [|Hi]; [done|].
  exfalso. pose proof (Index_bound _ _ Hi) as Hb.
  pose proof (Index_found _ _ Hi) as Hf.
  rewrite length_take in Hb.
  set (i := Z.to_nat (Index (take m j) sep)) in *.
  assert (Hd : drop i (take m j) = take (m - i) (drop i j)).
  { rewrite take_drop_commute. do 2 f_equal. lia. }
  rewrite Hd in Hf. apply HasPrefix_take in Hf.
  apply Index_first in Hf; lia.
Qed.

Lemma extract_loop_none fuel st :
  (Index (unconsumed st) endOfJPEG < 0)%Z → extract_loop fuel st = Done st.
Proof.
  intros H. destruct fuel; simpl; fold (unconsumed st);
    by destruct (Z.ltb_spec (Index (unconsumed st) endOfJPEG) 0); [|lia].
Qed.

Lemma extract_loop_S fuel st :
  (0 ≤ Index (unconsumed st) endOfJPEG)%Z →
  extract_loop (S fuel) st =
  match extract_one (Index (unconsumed st) endOfJPEG) st with
  | None => Panicked st
  | Some st' => extract_loop fuel st'
  end.
Proof.
  intros H. simpl. fold (unconsumed st).
  by destruct (Z.ltb_spec (Index (unconsumed st) endOfJPEG) 0); [lia|].
Qed.

Lemma HasSuffix_at_end j :
  HasPrefix j beginOfJPEG = true →
  Index j endOfJPEG = (Z.of_nat (length j) - 2)%Z →
  HasSuffix j endOfJPEG = true.
Proof.
  intros Hp Hi. apply HasPrefix_length in Hp. change (length beginOfJPEG) with 2 in Hp.
  unfold HasSuffix. apply andb_true_iff. split; [by apply Nat.leb_le|].
  change (length endOfJPEG) with 2.
  replace (length j - 2) with (Z.to_nat (Index j endOfJPEG)) by lia.
  apply Index_found. lia.
Qed.

(** With the cursor at the start of the buffer and a whole image in it, the
    image is published. *)
Lemma extract_one_publishes st st' j :
  reader_ok st → br st = 0%Z → unconsumed st = j → whole_jpeg j →
  extract_one (Index j endOfJPEG) st = Some st' →
  frames_of st' = frames_of st ++ [j] ∧ unconsumed st' = [].
Proof.
  intros Hok Hbr Hu (Hp & Hi & _) HE.
  pose proof (HasPrefix_length _ _ Hp) as Hl. change (length beginOfJPEG) with 2 in Hl.
  assert (He : (0 ≤ Index (unconsumed st) endOfJPEG)%Z) by (rewrite Hu; lia).
  rewrite <- Hu in HE.
  destruct (extract_one_frames st st' Hok He HE) as (Hok' & Hlt & _ & Hun & _ & _).
  rewrite Hu in Hun, HE.
  replace (Z.to_nat (Index j endOfJPEG) + 2) with (length j) in Hun by lia.
  rewrite drop_all in Hun. split; [|done].
  pose proof (ok_heap _ Hok) as Hh. pose proof (ok_arr _ Hok) as Ha.
  pose proof (candidate_bytes _ st st' HE ltac:(lia) ltac:(lia)) as Hc.
  rewrite (bytes_of_reslice_take _ _ _ _ (bw st)) in Hc.
  2:{ pose proof (unconsumed_length st Hok) as Hul. rewrite Hu in Hul. lia. }
  fold (unconsumed st) in Hc. rewrite Hu, Hbr, take_take in Hc.
  rewrite take_ge in Hc by lia.
  destruct (extract_one_inv _ _ _ HE) as (e & Hs & Htr & Hv & _).
  rewrite Hc in Hv. unfold valid_jpeg in Hv.
  rewrite Hp, (HasSuffix_at_end j Hp Hi) in Hv. destruct e as [img|img]; [|done].
  destruct (frames_of_later st st' Hok Hlt) as (evs & Hevs & ->).
  rewrite Htr in Hevs. apply app_inv_head in Hevs as <-.
  simpl in *. by rewrite Hs, Hc.
Qed.

Lemma one_image_comes ks :
  Forall (λ k, 0 < k) ks → ks ≠ [] →
  ∀ st j acc rj rest,
    whole_jpeg j → reader_ok st → s_len (buf st) = bufsize →
    unconsumed st = acc → j = acc ++ rj → sum_list ks = length rj →
    ∃ st', main_loop ks (rj ++ rest) st = (Reading, st', rest) ∧
           reader_ok st' ∧ s_len (buf st') = bufsize ∧
           unconsumed st' = [] ∧ frames_of st' = frames_of st ++ [j].
Proof.
  induction 1 as [|k ks Hk Hks IH]; [done|]. intros _ st j acc rj rest
    Hj Hok Hbuf Hacc Hjeq Hsum. simpl in Hsum.
  destruct (slide_ok st Hok) as [Hok1 Hl1].
  pose proof (slide_br st Hok) as Hbr1.
  pose proof (slide_filled st Hok) as Hf1.
  pose proof (slide_frames st Hok) as Hfr1.
  assert (Hbuf1 : s_len (buf (slide st)) = bufsize)
    by (by rewrite (lt_buf _ _ Hl1)).
  simpl.
  destruct (Read _ k (rj ++ rest) _) as [[[n stream'] h']|] eqn:ER.
  2:{ exfalso. revert ER. unfold Read. simpl.
      pose proof (filled_length _ Hok1) as Hfl. rewrite Hf1, Hacc in Hfl.
      destruct Hj as (_ & _ & Hsz). rewrite Hjeq, length_app in Hsz.
      destruct (Z.leb_spec (s_len (buf (slide st)) - bw (slide st)) 0);
        [done|]. destruct rj; [simpl in Hsum; lia|done]. }
  destruct (Read_ok _ _ _ _ _ _ Hok1 ER) as (Hn & Hok2 & Hl2).
  destruct (Read_filled _ Hok1 _ _ _ _ _ ER) as (_ & Hf2 & Hs' & Hnk & _).
  set (st2 := Reader _ _ _ _ _) in *.
  assert (Hnk' : Z.to_nat n = k).
  { pose proof (filled_length _ Hok1) as Hfl. rewrite Hf1, Hacc in Hfl.
    destruct Hj as (_ & _ & Hsz). rewrite Hjeq, !length_app in Hsz.
    rewrite length_app in Hnk. lia. }
  rewrite Hnk' in Hf2, Hs'.
  assert (Hu2 : unconsumed st2 = acc ++ take k rj).
  { rewrite (unconsumed_filled st2 Hok2). change (br st2) with (br (slide st)).
    rewrite Hbr1, drop_0, Hf2, Hf1, Hacc. f_equal. apply take_app_le. lia. }
  assert (Hrest : stream' = drop k rj ++ rest).
  { rewrite Hs'. apply drop_app_le. lia. }
  assert (Hfr2 : frames_of st2 = frames_of st)
    by (by rewrite (frames_of_same _ st2 Hok1 Hl2)).
  assert (Hbuf2 : s_len (buf st2) = bufsize) by done.
  assert ((n =? 0)%Z = false) as -> by lia.
  unfold extract_images.
  destruct ks as [|k' ks].
  - (* the read that brings the end of the image *)
    simpl in Hsum. assert (k = length rj) as Hkl by lia.
    rewrite Hkl, take_ge, <- Hjeq in Hu2 by lia.
    rewrite Hkl, drop_all in Hrest. simpl in Hrest. rewrite Hrest.
    pose proof Hj as (Hp & Hi & Hsz).
    pose proof (HasPrefix_length _ _ Hp) as Hl. change (length beginOfJPEG) with 2 in Hl.
    pose proof (unconsumed_length st2 Hok2) as Hul. rewrite Hu2 in Hul.
    destruct (Z.to_nat (bw st2 - br st2)) as [|fuel] eqn:Hfuel; [lia|].
    rewrite extract_loop_S by (rewrite Hu2; lia). rewrite Hu2.
    destruct (extract_one (Index j endOfJPEG) st2) as [st3|] eqn:E.
    2:{ apply extract_one_None in E. change (br st2) with (br (slide st)) in E. lia. }
    destruct (extract_one_publishes st2 st3 j Hok2 Hbr1 Hu2 Hj E) as [Hfr3 Hu3].
    assert (He : (0 ≤ Index (unconsumed st2) endOfJPEG)%Z) by (rewrite Hu2; lia).
    rewrite <- Hu2 in E.
    destruct (extract_one_ok st2 st3 Hok2 He E) as (Hok3 & Hl3 & _).
    rewrite extract_loop_none by (by rewrite Hu3).
    exists st3. split; [done|]. split; [done|]. split; [|split; [done|]].
    + by rewrite (lt_buf _ _ Hl3).
    + by rewrite Hfr3, Hfr2.
  - (* a read that leaves the image unfinished *)
    apply Forall_cons in Hks as Hk'. destruct Hk' as [Hk' _].
    assert (Hlt : length (acc ++ take k rj) < length j).
    { rewrite Hjeq, !length_app, length_take. simpl in Hsum. lia. }
    assert (Hno : (Index (unconsumed st2) endOfJPEG < 0)%Z).
    { rewrite Hu2. destruct Hj as (_ & Hi & _).
      replace (acc ++ take k rj) with (take (length (acc ++ take k rj)) j).
      - by apply Index_proper_prefix.
      - rewrite Hjeq at 1. rewrite length_app, take_app_add.
        f_equal. rewrite length_take. f_equal. simpl in Hsum. lia. }
    rewrite extract_loop_none by done.
    destruct (IH ltac:(done) st2 j (acc ++ take k rj) (drop k rj) rest)
      as (st' & Hm & ? & ? & ? & Hfr'); try done.
    + by rewrite Hjeq, <- app_assoc, take_drop.
    + rewrite length_drop. simpl in Hsum |- *. lia.
    + exists st'. rewrite Hrest. split; [done|]. by rewrite Hfr', Hfr2.
Qed.

Lemma images_come js kss :
  Forall2 (λ j ks, whole_jpeg j ∧ brings j ks) js kss →
  ∀ st, reader_ok st → s_len (buf st) = bufsize → unconsumed st = [] →
  ∃ st', main_loop (concat kss) (concat js) st = (Reading, st', []) ∧
         frames_of st' = frames_of st ++ js.
Proof.
  induction 1 as [|j ks js kss (Hj & Hsum & Hpos) _ IH]; intros st Hok Hbuf Hu.
  { exists st. simpl. by rewrite app_nil_r. }
  simpl. rewrite main_loop_app.
  assert (ks ≠ []) as Hne.
  { intros ->. destruct Hj as (Hp%HasPrefix_length & _).
    change (length beginOfJPEG) with 2 in Hp. simpl in Hsum. lia. }
  destruct (one_image_comes ks Hpos Hne st j [] j (concat js) Hj Hok Hbuf Hu)
    as (st1 & -> & Hok1 & Hbuf1 & Hu1 & Hfr1); [done|done|].
  destruct (IH st1 Hok1 Hbuf1 Hu1) as (st' & -> & Hfr').
  exists st'. split; [done|]. by rewrite Hfr', Hfr1, <- app_assoc.
Qed.

(** X10: images that come one at a time are all published: when every read
    ends inside an image or at its end, never beyond it, the frames handed
    to [sendImage] are the images of the stream, byte for byte and in their
    order, wherever the reads cut them otherwise. *)
Theorem images_read_one_at_a_time_are_published js kss :
  Forall2 (λ j ks, whole_jpeg j ∧ brings j ks) js kss →
  frames (main (concat js) (concat kss)) = js ∧
  (main (concat js) (concat kss)).1.1 = Reading.
Proof.
  intros H.
  destruct (images_come js kss H init init_ok eq_refl unconsumed_init)
    as (st' & Hm & Hf).
  unfold main, frames. rewrite Hm. simpl. split; [|done].
  fold (frames_of st'). by rewrite Hf.
Qed.

Lemma images_read_one_at_a_time_are_published_witness :
  frames (main (j4 ++ j6 ++ j5) [1; 3; 2; 2; 2; 5]) = [j4; j6; j5].
Proof.
  destruct (images_read_one_at_a_time_are_published [j4; j6; j5]
              [[1; 3]; [2; 2; 2]; [5]]) as [H _].
  - repeat constructor; vm_compute; congruence.
  - exact H.
Defined.

(** * Further properties of the hub *)

(** ** Sequences of hub operations *)

Lemma sendImage_wf jpg w :
  hub_wf w →
  ∃ w', sendImage jpg w = Ok w' ∧ hub_wf w' ∧ requester w' = requester w ∧
        (∀ id c, requester w !! id = Some c →
                 chans w' !! c = offer jpg <$> chans w !! c) ∧
        (∀ c, (∀ id, requester w !! id ≠ Some c) →
              chans w' !! c = chans w !! c).
Proof.
  intros Hwf. pose proof Hwf as [Hopen Hinj].
  destruct (sendImage_in_spec w jpg (map_to_list (requester w)) Hwf
              ltac:(done)) as (w' & Hs & Hreq & Hlen & Hspec & Hother & _).
  exists w'. split_and!; try done. split.
  - intros id' c' Hid'. rewrite Hreq in Hid'.
    destruct (Hopen _ _ Hid') as (ch' & Hch' & Hcl' & Hcap').
    exists (offer jpg ch'). rewrite (Hspec _ _ Hid'), Hch'.
    split; [done|]. unfold offer. by destruct (_ <? _).
  - rewrite Hreq. apply Hinj.
Qed.

Lemma queue_unregistered id w : requester w !! id = None → queue id w = [].
Proof. unfold queue. by intros ->. Qed.

(** Every operation completes and keeps the registry in order; a subscriber
    found afterwards either has just joined, with an empty queue, or was
    there before and has the queue the operation leaves it. *)
Lemma act_wf a w :
  hub_wf w →
  ∃ w', act a w = Ok w' ∧ hub_wf w' ∧
        ∀ id c, requester w' !! id = Some c →
                a = Join id ∧ queue id w' = [] ∨
                requester w !! id = Some c ∧
                queue id w' = next_queue id a (queue id w).
Proof.
  intros Hwf.
  assert (Hold : ∀ id c, a ≠ Join id → a ≠ Leave id →
            requester w !! id = Some c →
            ∃ w', act a w = Ok w' ∧ hub_wf w' ∧
                  queue id w' = next_queue id a (queue id w)).
  { intros id c H1 H2 Hid.
    destruct (act_spec id c a w Hwf Hid H1 H2) as (w' & ? & ? & ? & ? & _).
    by exists w'. }
  destruct a as [jpg|id0|id0|id0].
  - destruct (sendImage_wf jpg w Hwf) as (w' & Hs & Hwf' & Hreq & _).
    exists w'. split; [done|]. split; [done|]. intros id c Hid. right.
    rewrite Hreq in Hid. split; [done|].
    destruct (Hold id c) as (w'' & Hs' & _ & Hq); try done.
    simpl in Hs'. rewrite Hs in Hs'. by injection Hs' as <-.
  - destruct (register_fresh id0 w Hwf) as (Hwf2 & Hu2 & Hq2 & _).
    eexists. split; [done|]. split; [done|]. intros id c.
    destruct (decide (id = id0)) as [->|Hne]; [by left|].
    simpl. rewrite lookup_insert_ne by done. intros Hid. right. split; [done|].
    destruct (Hold id c) as (w'' & Hs' & _ & Hq); try done; [congruence|].
    by injection Hs' as <-.
  - destruct (requester w !! id0) as [c0|] eqn:Hid0.
    + destruct (deferred_spec id0 c0 w Hwf Hid0) as (w' & Hd & Hwf' & Hreq & _).
      exists w'. split; [by simpl; rewrite Hid0|]. split; [done|].
      intros id c. rewrite Hreq, lookup_delete. case_decide; [done|].
      intros Hid. right. split; [done|].
      destruct (Hold id c) as (w'' & Hs' & _ & Hq); try done; [congruence|].
      simpl in Hs'. rewrite Hid0 in Hs'.
      change (deferred id0 c0 w = Ok w'') in Hs'.
      rewrite Hd in Hs'. by injection Hs' as <-.
    + exists w. split; [by simpl; rewrite Hid0|]. split; [done|].
      intros id c Hid. right. done.
  - destruct (requester w !! id0) as [c0|] eqn:Hid0.
    2:{ exists w. split; [by simpl; rewrite Hid0|]. split; [done|].
        intros id c Hid. right. split; [done|]. simpl. case_decide; [|done].
        subst. congruence. }
    destruct (Hold id0 c0) as (w' & Hs & Hwf' & Hq); try done.
    exists w'. split; [done|]. split; [done|]. intros id c Hid. right.
    assert (Hreq : requester w' = requester w).
    { simpl in Hs. rewrite Hid0 in Hs.
      destruct (chan_recv c0 (chans w)) as [[v cs]|]; by injection Hs as <-. }
    rewrite Hreq in Hid. split; [done|].
    destruct (Hold id c) as (w'' & Hs' & _ & Hq'); try done.
    rewrite Hs in Hs'. by injection Hs' as <-.
Qed.

Lemma next_queue_bounded id a q :
  length q ≤ maxBacklog → length (next_queue id a q) ≤ maxBacklog.
Proof.
  intros H. destruct a; simpl; try done.
  - destruct (Nat.ltb_spec (length q) maxBacklog); [|done].
    rewrite length_app. simpl. lia.
  - case_decide; [|done]. destruct q; simpl in *; lia.
Qed.

Lemma run_wf script :
  ∀ w, hub_wf w →
  ∃ w', run script w = Ok w' ∧ hub_wf w' ∧
        (backlog_bounded w → backlog_bounded w').
Proof.
  induction script as [|a script IH]; intros w Hwf; [by exists w|].
  destruct (act_wf a w Hwf) as (w1 & Ha & Hwf1 & Hq).
  destruct (IH w1 Hwf1) as (w' & Hr & Hwf' & Hb).
  exists w'. split; [by simpl; rewrite Ha|]. split; [done|].
  intros Hbw. apply Hb. intros id.
  destruct (requester w1 !! id) as [c|] eqn:Hid.
  - destruct (Hq id c Hid) as [[_ ->]|[_ ->]]; [simpl; lia|].
    apply next_queue_bounded, Hbw.
  - rewrite queue_unregistered by done. simpl. lia.
Qed.

(** X11: operations of the hub that run one after the other never get stuck:
    whatever sequence of publishes ([sendImage]), registrations,
    clean-ups (deregister and close) and receives is run from a registry
    whose entries are distinct open channels with room beyond the
    watermark, every one of them completes, none blocks on a full channel
    and none panics on a closed one, and the registry is left in the same
    good order. *)
Theorem hub_operations_complete script w :
  hub_wf w → ∃ w', run script w = Ok w' ∧ hub_wf w'.
Proof.
  intros Hwf. destruct (run_wf script w Hwf) as (w' & ? & ? & _). by exists w'.
Qed.

Lemma hub_operations_complete_witness :
  ∃ w', run [Join "a"; Publish j4; Join "a"; Leave "b"; Publish j5;
             Take "a"; Leave "a"; Publish j6; Take "a"] empty_world = Ok w' ∧
        hub_wf w'.
Proof. apply hub_operations_complete, empty_world_wf. Defined.

(** X12: the backlog stays bounded: with publishes run one after the other,
    a queue never grows beyond [maxBacklog] frames, half the capacity the
    handlers give their channels; if no registered queue holds more than
    that before a sequence of operations, none does after it. *)
Theorem backlog_stays_bounded script w :
  hub_wf w → backlog_bounded w →
  ∃ w', run script w = Ok w' ∧ backlog_bounded w'.
Proof.
  intros Hwf Hb. destruct (run_wf script w Hwf) as (w' & ? & _ & H).
  exists w'. auto.
Qed.

Lemma backlog_stays_bounded_witness :
  ∃ w', run (Join "a" :: (Publish <$> [j4; j5; j6; j4; j5; j6; j4]))
            empty_world = Ok w' ∧ backlog_bounded w'.
Proof.
  apply backlog_stays_bounded; [apply empty_world_wf|].
  intros id. rewrite queue_unregistered by done. simpl. lia.
Defined.

(** X13: a subscriber that does not receive keeps the oldest frames: when the
    frames [fs] are published one after the other and nothing is taken from
    the queue of [id], the queue is filled up to [maxBacklog] with the first
    of them and the later ones are dropped for this subscriber. *)
Theorem slow_subscriber_keeps_the_oldest id c fs w :
  hub_wf w → requester w !! id = Some c →
  ∃ w', run (Publish <$> fs) w = Ok w' ∧
        queue id w' =
        queue id w ++ take (maxBacklog - length (queue id w)) fs.
Proof.
  revert w. induction fs as [|f fs IH]; intros w Hwf Hid.
  { exists w. split; [done|]. by rewrite take_nil, app_nil_r. }
  destruct (act_spec id c (Publish f) w Hwf Hid) as (w1 & Ha & Hwf1 & Hid1 & Hq & _);
    [done|done|].
  destruct (IH w1 Hwf1 Hid1) as (w' & Hr & Hq').
  exists w'. split; [by rewrite fmap_cons; simpl in *; rewrite Ha|].
  rewrite Hq', Hq. simpl.
  destruct (Nat.ltb_spec (length (queue id w)) maxBacklog) as [Hlt|Hge].
  - rewrite length_app, <- app_assoc. simpl. f_equal.
    replace (maxBacklog - length (queue id w))
      with (S (maxBacklog - (length (queue id w) + 1))) by lia.
    done.
  - by replace (maxBacklog - length (queue id w)) with 0 by lia.
Qed.

Lemma slow_subscriber_keeps_the_oldest_witness :
  ∃ w', run (Publish <$> [j6; j6; j5]) two_subscribers = Ok w' ∧
        queue "b" w' = [j6; j6; j5] ∧ queue "a" w' = [j4; j5; j6; j4; j5].
Proof.
  assert (Hwf : hub_wf two_subscribers).
  { split.
    - intros id c. unfold two_subscribers. simpl.
      rewrite !lookup_insert. repeat case_decide; try done;
        intros [= <-]; eexists; (split; [done|]); split; try done;
        unfold maxBacklog; simpl; lia.
    - intros id1 id2 c. unfold two_subscribers. simpl.
      rewrite !lookup_insert. repeat case_decide; subst; try done;
        intros [= <-]; done. }
  destruct (slow_subscriber_keeps_the_oldest "b" 1 [j6; j6; j5] two_subscribers
              Hwf eq_refl) as (w' & Hr & Hb).
  destruct (slow_subscriber_keeps_the_oldest "a" 0 [j6; j6; j5] two_subscribers
              Hwf eq_refl) as (w'' & Hr' & Ha).
  rewrite Hr in Hr'. injection Hr' as <-.
  exists w'. split; [done|]. split; [exact Hb | exact Ha].
Defined.

(** X14: a registration takes effect with the next publish and ends with the
    deregistration: the channel a handler makes and registers gets the next
    frame [sendImage] publishes, as the only frame in it; once the handler
    has deregistered, and before it has closed the channel, a publish
    leaves that channel as it is. *)
Theorem registration_bounds_delivery id jpg w :
  hub_wf w →
  let c := length (chans w) in
  let w2 := registerImgChan id c (make_chan 10 w).2 in
  ∃ w3 w4,
    sendImage jpg w2 = Ok w3 ∧ queue id w3 = [jpg] ∧
    sendImage jpg (deregisterImgChan id w3) = Ok w4 ∧
    requester w4 !! id = None ∧ chans w4 !! c = chans w3 !! c ∧
    chans w4 !! c = Some (Chan [jpg] 10 false).
Proof.
  intros Hwf c w2.
  destruct (register_fresh id w Hwf) as (Hwf2 & Hu2 & Hq2 & _). fold c w2 in Hwf2, Hu2, Hq2.
  destruct (sendImage_wf jpg w2 Hwf2) as (w3 & Hs3 & Hwf3 & Hreq3 & Hin3 & _).
  assert (Hc3 : chans w3 !! c = Some (Chan [jpg] 10 false)).
  { rewrite (Hin3 _ _ Hu2). simpl. unfold c.
    by rewrite lookup_app_r, Nat.sub_diag by done. }
  assert (Hu3 : requester w3 !! id = Some c) by (by rewrite Hreq3).
  assert (Hwfd : hub_wf (deregisterImgChan id w3)).
  { destruct Hwf3 as [Hopen Hinj]. split; simpl.
    - intros id' c'. rewrite lookup_delete. case_decide; [done|]. apply Hopen.
    - intros id1 id2 c'. rewrite !lookup_delete.
      repeat case_decide; try done. apply Hinj. }
  destruct (sendImage_wf jpg _ Hwfd) as (w4 & Hs4 & Hwf4 & Hreq4 & _ & Hout4).
  exists w3, w4. split; [done|]. split.
  { unfold queue. by rewrite Hu3, Hc3. }
  split; [done|]. split.
  { rewrite Hreq4. simpl. apply lookup_delete_eq. }
  assert (chans w4 !! c = chans w3 !! c) as Heq.
  { rewrite Hout4; [done|]. intros id'. simpl. rewrite lookup_delete.
    case_decide; [done|]. intros Hid'. destruct Hwf3 as [_ Hinj].
    by specialize (Hinj _ _ _ Hid' Hu3). }
  split; [done|]. by rewrite Heq.
Qed.

Lemma registration_bounds_delivery_witness :
  ∃ w3 w4,
    sendImage j5 (registerImgChan "c" 2 (make_chan 10 two_subscribers).2) = Ok w3 ∧
    queue "c" w3 = [j5] ∧
    sendImage j5 (deregisterImgChan "c" w3) = Ok w4 ∧
    requester w4 !! "c" = None ∧ chans w4 !! 2 = chans w3 !! 2 ∧
    chans w4 !! 2 = Some (Chan [j5] 10 false).
Proof.
  apply (registration_bounds_delivery "c" j5 two_subscribers).
  split.
  - intros id c. unfold two_subscribers. simpl.
    rewrite !lookup_insert. repeat case_decide; try done;
      intros [= <-]; eexists; (split; [done|]); split; try done;
      unfold maxBacklog; simpl; lia.
  - intros id1 id2 c. unfold two_subscribers. simpl.
    rewrite !lookup_insert. repeat case_decide; subst; try done;
      intros [= <-]; done.
Defined.

(** * Further properties of the streaming handler *)

(** ** The body of the stream *)

Lemma kept_error_spec res :
  kept_error res = true ↔ ∃ img, (img, WriteFailed) ∈ renders res.
Proof.
  unfold kept_error. rewrite existsb_exists. split.
  - intros ([img r] & Hin & Hr). exists img. apply list_elem_of_In in Hin.
    simpl in Hr. by destruct r.
  - intros (img & Hin). exists (img, WriteFailed).
    by rewrite <- list_elem_of_In.
Qed.

Lemma kept_error_false res :
  kept_error res = false ↔ Forall (λ ir, ir.2 ≠ WriteFailed) (renders res).
Proof.
  rewrite <- not_true_iff_false, kept_error_spec, Forall_forall. split.
  - intros H [img r] Hin ?. simpl in *. subst. eauto.
  - intros H (img & Hin). by apply (H _ Hin).
Qed.

Lemma write_error_is_final_kept res :
  write_error_is_final (renders res) → kept_error res = true →
  ∃ rs1 img rs2, renders res = rs1 ++ (img, WriteFailed) :: rs2 ∧
                 Forall (λ ir, ir.2 ≠ WriteFailed) rs1 ∧
                 Forall (λ ir, ir.2 = CreatePartFailed) rs2.
Proof.
  intros [H%kept_error_false|H] Hk; [congruence|done].
Qed.

Lemma render_spec img r res :
  status (render img r res) = status res ∧
  headers (render img r res) = headers res ∧
  renders (render img r res) = renders res ++ [(img, r)] ∧
  body (render img r res) = body res ++ parts_written [(img, r)].
Proof. unfold render. destruct r; simpl; by rewrite ?app_nil_r. Qed.

Lemma parts_written_app rs1 rs2 :
  parts_written (rs1 ++ rs2) = parts_written rs1 ++ parts_written rs2.
Proof. unfold parts_written. apply bind_app. Qed.

(** One turn of the closure keeps the shape of the renders. *)
Lemma closure_keeps_final conn img res :
  write_error_is_final (renders res) →
  write_error_is_final (renders res ++ [(img, closure_result conn res)]).
Proof.
  intros H. unfold closure_result.
  destruct (kept_error res) eqn:Hk.
  - destruct (write_error_is_final_kept res H Hk) as (rs1 & img0 & rs2 & -> & H1 & H2).
    right. exists rs1, img0, (rs2 ++ [(img, CreatePartFailed)]).
    rewrite <- app_assoc. split; [done|]. split; [done|].
    apply Forall_app. split; [done|]. by apply Forall_singleton.
  - apply kept_error_false in Hk. destruct conn.
    + left. apply Forall_app. split; [done|]. by apply Forall_singleton.
    + left. apply Forall_app. split; [done|]. by apply Forall_singleton.
    + right. by exists (renders res), img, [].
Qed.

Lemma mjpeg_loop_body script imgs uid :
  ∀ errC res w e res' w',
    mjpeg_loop script imgs uid errC res w = Ok (e, res', w') →
    write_error_is_final (renders res) →
    write_error_is_final (renders res') ∧
    ∃ rs, renders res' = renders res ++ rs ∧
          body res' = body res ++ parts_written rs.
Proof.
  induction script as [|s script IH]; intros errC res w e res' w' H Hf;
    simpl in H.
  { injection H as <- <- <-. split; [done|]. exists []. by rewrite !app_nil_r. }
  destruct s as [a| |conn].
  - destruct (act a w) as [w1| |]; simpl in H; [|done|done]. eauto.
  - injection H as <- <- <-. split; [done|]. exists []. by rewrite !app_nil_r.
  - destruct (chan_recv imgs (chans w)) as [[img cs]|]; [|eauto].
    pose proof (closure_keeps_final conn img res Hf) as Hf1.
    revert H Hf1. generalize (closure_result conn res). intros r H Hf1.
    destruct (render_spec img r res) as (_ & _ & Hr & Hb).
    rewrite <- Hr in Hf1.
    assert (Hsnoc : ∀ rs, renders res' = renders (render img r res) ++ rs →
              body res' = body (render img r res) ++ parts_written rs →
              ∃ rs, renders res' = renders res ++ rs ∧
                    body res' = body res ++ parts_written rs).
    { intros rs H1 H2. exists ((img, r) :: rs). rewrite H1, H2, Hr, Hb.
      rewrite <- !app_assoc. split; [done|]. f_equal.
      by rewrite <- parts_written_app. }
    destruct (part_ok r) eqn:Hok.
    + apply IH in H as (? & rs & H1 & H2); eauto.
    + destruct (5 <? errC + 1)%Z.
      * injection H as <- <- <-. split; [done|].
        apply (Hsnoc []); by rewrite app_nil_r.
      * apply IH in H as (? & rs & H1 & H2); eauto.
Qed.

Lemma consecutive_failures_nonneg rs : (0 ≤ consecutive_failures rs)%Z.
Proof.
  induction rs as [|r rs IH] using rev_ind; [done|].
  rewrite consecutive_failures_snoc. destruct (part_ok r); lia.
Qed.

Lemma consecutive_failures_app_failed rs fs :
  Forall (λ r, part_ok r = false) fs →
  consecutive_failures (rs ++ fs)
  = (consecutive_failures rs + Z.of_nat (length fs))%Z.
Proof.
  induction fs as [|r fs IH] using rev_ind; intros H.
  { rewrite app_nil_r. simpl. lia. }
  apply Forall_app in H as [Hfs Hr]. rewrite Forall_singleton in Hr.
  rewrite app_assoc, consecutive_failures_snoc, Hr, IH, length_app by done.
  simpl. lia.
Qed.

(** X15: a failed image write ends the stream for good.  Once the closure of
    a GET session has failed on writing an image, the multipart writer keeps
    the error: every later image is turned down when its part is to be
    created, nothing more is written, neither a part nor, when the handler
    returns, the closing boundary, so that the body ends with the boundary
    and header of the image that did not go out; after at most five more
    images the handler gives up with too many errors. *)
Theorem failed_image_write_ends_the_stream uid r script w :
  hub_wf w → Forall (avoids uid) script → method r = "GET" →
  ∃ e res w',
    handle uid r script w = Ok (e, res, w') ∧
    ∀ img, (img, WriteFailed) ∈ renders res →
      ∃ rs1 rs2,
        renders res = rs1 ++ (img, WriteFailed) :: rs2 ∧
        Forall (λ ir, ir.2 ≠ WriteFailed) rs1 ∧
        Forall (λ ir, ir.2 = CreatePartFailed) rs2 ∧
        length rs2 ≤ 5 ∧
        (length rs2 = 5 → e = TooManyErrors) ∧
        body res =
          parts_written rs1 ++
          [PartStart [("Content-Type", "image/jpeg");
                      ("Content-Length", pretty (length img))]].
Proof.
  intros Hwf Hs Hm.
  destruct (handle_spec uid r script w Hwf Hs) as (e & res & w' & Hh & _ & H).
  exists e, res, w'. split; [done|]. intros img Hin.
  rewrite Hm in H. simpl in H. destruct H as (_ & _ & _ & He).
  destruct (handle_GET _ _ _ _ _ _ _ Hm Hh) as (res1 & w1 & HL & Hres).
  apply mjpeg_loop_body in HL as (Hf & rs & Hrs & Hb); [|by left].
  simpl in Hrs, Hb.
  assert (Hrr : renders res = renders res1) by (rewrite Hres; by destruct (_ && _)).
  rewrite Hrr in Hin.
  assert (Hk : kept_error res1 = true) by (apply kept_error_spec; eauto).
  rewrite Hk, andb_false_r in Hres. subst res1.
  destruct (write_error_is_final_kept res Hf Hk) as (rs1 & img0 & rs2 & Hd & H1 & H2).
  assert (img0 = img) as ->.
  { rewrite Hd in Hin. apply elem_of_app in Hin as [Hin|Hin].
    - rewrite Forall_forall in H1. by destruct (H1 _ Hin).
    - apply elem_of_cons in Hin as [Hin|Hin]; [congruence|].
      rewrite Forall_forall in H2. by specialize (H2 _ Hin). }
  exists rs1, rs2. split; [done|]. split; [done|]. split; [done|].
  assert (Hcf : (Z.of_nat (length rs2) + 1
                 ≤ consecutive_failures (renders res).*2)%Z).
  { rewrite Hd, fmap_app, consecutive_failures_app_failed.
    - pose proof (consecutive_failures_nonneg (rs1.*2)).
      rewrite length_fmap. simpl. lia.
    - rewrite fmap_cons. constructor; [done|]. apply Forall_fmap.
      eapply Forall_impl; [done|]. intros [? ?] Hx. simpl in *. by subst. }
  assert (Hle : (consecutive_failures (renders res).*2 ≤ 5)%Z ∨ e = TooManyErrors).
  { destruct e; try done; [left|by right|left].
    - by apply He.
    - destruct He as [_ He]. by apply He. }
  assert (Hmax : (consecutive_failures (renders res).*2 ≤ 6)%Z).
  { destruct Hle as [?| ->]; [lia|]. destruct He as [-> _]. done. }
  split; [lia|]. split.
  { intros H5. destruct Hle as [?|?]; [lia|done]. }
  rewrite Hb. subst rs. rewrite Hd, parts_written_app. f_equal.
  change ((img, WriteFailed) :: rs2) with ([(img, WriteFailed)] ++ rs2).
  rewrite parts_written_app.
  assert (parts_written rs2 = []) as ->; [|done].
  clear -H2. induction H2 as [|[? ?] rs2 Hx _ IH]; [done|].
  simpl in Hx. subst. done.
Qed.

Lemma failed_image_write_ends_the_stream_witness :
  ∃ e res w',
    handle "u" (Request "GET" "/mjpeg")
           [Env (Publish j4); Recv PartOk; Env (Publish j5); Recv WriteFailed;
            Env (Publish j6); Recv PartOk; CloseNotify] empty_world
      = Ok (e, res, w') ∧
    ∀ img, (img, WriteFailed) ∈ renders res →
      ∃ rs1 rs2,
        renders res = rs1 ++ (img, WriteFailed) :: rs2 ∧
        Forall (λ ir, ir.2 ≠ WriteFailed) rs1 ∧
        Forall (λ ir, ir.2 = CreatePartFailed) rs2 ∧
        length rs2 ≤ 5 ∧
        (length rs2 = 5 → e = TooManyErrors) ∧
        body res =
          parts_written rs1 ++
          [PartStart [("Content-Type", "image/jpeg");
                      ("Content-Length", pretty (length img))]].
Proof.
  apply failed_image_write_ends_the_stream; [apply empty_world_wf| |done].
  repeat constructor; done.
Defined.

(** What the session of the witness comes to: the image after the failed
    one is turned down although the connection would take it, and the body
    ends without a closing boundary. *)
Example failed_write_then_close :
  ∃ w',
    handle "u" (Request "GET" "/mjpeg")
           [Env (Publish j4); Recv PartOk; Env (Publish j5); Recv WriteFailed;
            Env (Publish j6); Recv PartOk; CloseNotify] empty_world
      = Ok (ClientClosed,
            Response 200 mjpeg_headers
              [part_of j4;
               PartStart [("Content-Type", "image/jpeg");
                          ("Content-Length", "5")]]
              [(j4, PartOk); (j5, WriteFailed); (j6, CreatePartFailed)], w').
Proof. eexists. by vm_compute. Qed.

Lemma keeps_up_loop uid c fs :
  ∀ res w,
    hub_wf w → requester w !! uid = Some c → queue uid w = [] →
    kept_error res = false →
    ∃ w', mjpeg_loop (keeps_up fs ++ [CloseNotify]) c uid 0 res w
          = Ok (ClientClosed,
                Response (status res) (headers res)
                         (body res ++ (part_of <$> fs))
                         (renders res ++ ((λ f, (f, PartOk)) <$> fs)), w') ∧
          hub_wf w' ∧ requester w' !! uid = Some c.
Proof.
  induction fs as [|f fs IH]; intros res w Hwf Hu Hq Hk.
  { exists w. simpl. rewrite !app_nil_r. by destruct res. }
  destruct (act_spec uid c (Publish f) w Hwf Hu) as (w1 & Ha & Hwf1 & Hu1 & Hq1 & _);
    [done|done|].
  rewrite Hq in Hq1. simpl in Hq1.
  pose proof (recv_spec uid c w1 Hwf1 Hu1) as Hrecv. rewrite Hq1 in Hrecv.
  destruct Hrecv as (cs & Hrecv & Hwf2 & Hq2).
  destruct (IH (render f PartOk res) _ Hwf2 Hu1 Hq2) as (w' & HL & Hwf' & Hu').
  { apply kept_error_false. destruct (render_spec f PartOk res) as (_ & _ & -> & _).
    apply Forall_app. split; [by apply kept_error_false|]. by apply Forall_singleton. }
  exists w'. split; [|done].
  change (keeps_up (f :: fs)) with ([Env (Publish f); Recv PartOk] ++ keeps_up fs).
  rewrite <- app_assoc.
  change (mjpeg_loop _ c uid 0 res w)
    with (w1 ← act (Publish f) w;
          mjpeg_loop (Recv PartOk :: keeps_up fs ++ [CloseNotify]) c uid 0 res w1).
  rewrite Ha. simpl. rewrite Hrecv. unfold closure_result. rewrite Hk.
  simpl. simpl in HL. rewrite HL.
  by rewrite <- !app_assoc.
Qed.

(** X16: a client that keeps up gets every frame: when the handler of a GET
    request for the stream receives each published frame before the next
    one is published and every write succeeds, the response carries the
    stream headers and one part per published frame, all of them and in the
    order of publication; when the client closes the connection the handler
    ends the multipart body, takes itself out of the registry and
    returns. *)
Theorem client_that_keeps_up_gets_every_frame uid r fs w :
  hub_wf w → method r = "GET" →
  ∃ w', handle uid r (keeps_up fs ++ [CloseNotify]) w
        = Ok (ClientClosed,
              Response 200 mjpeg_headers
                       ((part_of <$> fs) ++ [ClosingBoundary])
                       ((λ f, (f, PartOk)) <$> fs), w') ∧
        requester w' !! uid = None ∧ hub_wf w'.
Proof.
  intros Hwf Hm. unfold handle, handleMJPEG. simpl. rewrite Hm. simpl.
  destruct (register_fresh uid w Hwf) as (Hwf2 & Hu2 & Hq2 & _).
  set (c := length (chans w)) in *.
  set (w2 := registerImgChan uid c _) in *.
  set (res3 := header_add _ _ _).
  destruct (keeps_up_loop uid c fs res3 w2 Hwf2 Hu2 Hq2 eq_refl)
    as (w3 & HL & Hwf3 & Hu3).
  rewrite HL. simpl.
  match goal with
  | |- context [kept_error ?x] => assert (kept_error x = false) as ->
  end.
  { apply kept_error_false. simpl. apply Forall_fmap, Forall_true. done. }
  simpl.
  destruct (deferred_spec uid c w3 Hwf3 Hu3) as (w4 & Hd & Hwf4 & Hreq4 & _).
  rewrite Hd. simpl. exists w4. split; [done|]. split; [|done].
  rewrite Hreq4. apply lookup_delete_eq.
Qed.

Lemma client_that_keeps_up_gets_every_frame_witness :
  ∃ w', handle "u" (Request "GET" "/mjpeg")
               (keeps_up [j4; j5; j6; j4; j5; j6; j4] ++ [CloseNotify])
               two_subscribers
        = Ok (ClientClosed,
              Response 200 mjpeg_headers
                       ((part_of <$> [j4; j5; j6; j4; j5; j6; j4])
                          ++ [ClosingBoundary])
                       ((λ f, (f, PartOk)) <$> [j4; j5; j6; j4; j5; j6; j4]),
              w') ∧
        requester w' !! "u" = None ∧ hub_wf w'.
Proof.
  apply client_that_keeps_up_gets_every_frame; [|done].
  split.
  - intros id c. unfold two_subscribers. simpl.
    rewrite !lookup_insert. repeat case_decide; try done;
      intros [= <-]; eexists; (split; [done|]); split; try done;
      unfold maxBacklog; simpl; lia.
  - intros id1 id2 c. unfold two_subscribers. simpl.
    rewrite !lookup_insert. repeat case_decide; subst; try done;
      intros [= <-]; done.
Defined.

